(** * The amp-story progress bar: a model of
    [extensions/amp-story/1.0/progress-bar.js] and its properties.

    The class [ProgressBar] is embedded as a record of its fields together
    with the parts of its collaborators that the methods read or write: the
    child list of the root element, the right-to-left flag of the store and
    the scheduler's queue of pending mutate callbacks.  Methods are functions
    in a small state-and-exception monad; a thrown assertion carries the
    state at the point of the throw, so that what a failed call left behind
    can be stated.

    Integers (indices, counts) are [Z]; pixel quantities and progress values,
    which are JavaScript doubles, are rationals [Q], compared with
    [Qeq_bool] where the code uses [===].

    The scheduler is modelled by the queue of the callbacks it was handed:
    a method that calls [mutateElement] appends a task, and [runTask] is
    what the callback does on the state it finds when it runs.  The measure
    callbacks of [build] and [onResize_] are run at once, with the width
    they would read. *)

From Stdlib Require Import ZArith QArith Lia.
From stdpp Require Import base option list gmap strings.

#[local] Open Scope Z_scope.

(** ** Constants *)

Definition ELLIPSE_WIDTH_PX : Z := 2.
Definition SEGMENTS_MARGIN_PX : Z := 2.
Definition PROGRESS_BAR_PADDING_PX : Z := 4.
Definition MAX_SEGMENTS : Z := 20.
Definition SEGMENT_INCREMENT : Z := 5.

(** [TRANSITION_LINEAR], [TRANSITION_EASE] and the literal ['none']. *)
Inductive Transition := TRANSITION_NONE | TRANSITION_EASE | TRANSITION_LINEAR.

(** ** DOM nodes

    [buildSegmentEl_] creates an [li] and a [div] inside it.  A node is
    identified by the serial number of the [createElement] call that made
    its [li]. *)
Inductive Node :=
| SegmentBar (uid : nat)      (* li.i-amphtml-story-page-progress-bar *)
| ProgressValue (uid : nat).  (* the div.i-amphtml-story-page-progress-value in it *)

#[global] Instance Node_eq_dec : EqDecision Node.
Proof. solve_decision. Defined.

Definition progressValueOf (n : Node) : Node :=
  match n with SegmentBar u => ProgressValue u | ProgressValue u => ProgressValue u end.

(** ** Deferred mutations

    [resources_.mutateElement (el, callback)] does not run [callback]; the
    scheduler does, later.  A task records what the closure captured. *)
Inductive Task :=
| TaskRender (segmentWidth translateX : Q) (shouldAnimate : bool)
    (* the callback of [render_]: it captured [segmentWidth] and the
       initial [translateX]; everything else it reads when it runs *)
| TaskSetStyle (nthChildIndex : Z) (progressEl : option Node)
               (progress : Q) (withTransition : bool)
    (* the callback of [updateProgressByIndex_]; [nthChildIndex] is the
       index the selector was built from, [progressEl] what it found *)
| TaskDir (rtlState : bool).
    (* the callback of [onRtlStateUpdate_] *)

(** What a callback writes to the document when it runs. *)
Inductive DomWrite :=
| SetSegmentTransform (segment : Node) (translateX scaleX : Q)
| SetProgressStyles (progressEl : Node) (scaleX : Q) (transition : Transition)
| ToggleAnimateClass (shouldAnimate : bool)
| SetDirAttribute (rtl : bool).

(** ** The state *)

Record ProgressBar := mkProgressBar {
  isBuilt_ : bool;
  root_ : option (list Node);        (* [None] is [null]; [Some cs]: the [ol] with children [cs] *)
  segmentCount_ : Z;
  activeSegmentIndex_ : Z;
  activeSegmentProgress_ : Q;
  segmentIdMap_ : gmap string Z;
  activeSegmentId_ : string;
  segments_ : list Node;
  firstExpandedSegmentIndex_ : Z;
  barWidthPx_ : Q;
  (* collaborators *)
  storeRtl : bool;                   (* storeService_.get(StateProperty.RTL_STATE) *)
  mutateQueue : list Task;           (* callbacks handed to resources_.mutateElement *)
  createdElements : nat              (* number of segment elements created so far *)
}.

(** The constructor. *)
Definition newProgressBar : ProgressBar :=
  {| isBuilt_ := false; root_ := None; segmentCount_ := 0;
     activeSegmentIndex_ := 0; activeSegmentProgress_ := 1%Q;
     segmentIdMap_ := ∅; activeSegmentId_ := ""; segments_ := [];
     firstExpandedSegmentIndex_ := 0; barWidthPx_ := 0%Q;
     storeRtl := false; mutateQueue := []; createdElements := 0 |}.

(** Field assignments. *)
Definition set_isBuilt (b : bool) (st : ProgressBar) : ProgressBar :=
  mkProgressBar b (root_ st) (segmentCount_ st) (activeSegmentIndex_ st)
    (activeSegmentProgress_ st) (segmentIdMap_ st) (activeSegmentId_ st)
    (segments_ st) (firstExpandedSegmentIndex_ st) (barWidthPx_ st)
    (storeRtl st) (mutateQueue st) (createdElements st).
Definition set_root (r : option (list Node)) (st : ProgressBar) : ProgressBar :=
  mkProgressBar (isBuilt_ st) r (segmentCount_ st) (activeSegmentIndex_ st)
    (activeSegmentProgress_ st) (segmentIdMap_ st) (activeSegmentId_ st)
    (segments_ st) (firstExpandedSegmentIndex_ st) (barWidthPx_ st)
    (storeRtl st) (mutateQueue st) (createdElements st).
Definition set_segmentCount (n : Z) (st : ProgressBar) : ProgressBar :=
  mkProgressBar (isBuilt_ st) (root_ st) n (activeSegmentIndex_ st)
    (activeSegmentProgress_ st) (segmentIdMap_ st) (activeSegmentId_ st)
    (segments_ st) (firstExpandedSegmentIndex_ st) (barWidthPx_ st)
    (storeRtl st) (mutateQueue st) (createdElements st).
Definition set_active (i : Z) (p : Q) (id : string) (st : ProgressBar) : ProgressBar :=
  mkProgressBar (isBuilt_ st) (root_ st) (segmentCount_ st) i p
    (segmentIdMap_ st) id
    (segments_ st) (firstExpandedSegmentIndex_ st) (barWidthPx_ st)
    (storeRtl st) (mutateQueue st) (createdElements st).
Definition set_segmentIdMap (m : gmap string Z) (st : ProgressBar) : ProgressBar :=
  mkProgressBar (isBuilt_ st) (root_ st) (segmentCount_ st) (activeSegmentIndex_ st)
    (activeSegmentProgress_ st) m (activeSegmentId_ st)
    (segments_ st) (firstExpandedSegmentIndex_ st) (barWidthPx_ st)
    (storeRtl st) (mutateQueue st) (createdElements st).
Definition set_segments (l : list Node) (st : ProgressBar) : ProgressBar :=
  mkProgressBar (isBuilt_ st) (root_ st) (segmentCount_ st) (activeSegmentIndex_ st)
    (activeSegmentProgress_ st) (segmentIdMap_ st) (activeSegmentId_ st)
    l (firstExpandedSegmentIndex_ st) (barWidthPx_ st)
    (storeRtl st) (mutateQueue st) (createdElements st).
Definition set_firstExpanded (f : Z) (st : ProgressBar) : ProgressBar :=
  mkProgressBar (isBuilt_ st) (root_ st) (segmentCount_ st) (activeSegmentIndex_ st)
    (activeSegmentProgress_ st) (segmentIdMap_ st) (activeSegmentId_ st)
    (segments_ st) f (barWidthPx_ st)
    (storeRtl st) (mutateQueue st) (createdElements st).
Definition set_barWidthPx (w : Q) (st : ProgressBar) : ProgressBar :=
  mkProgressBar (isBuilt_ st) (root_ st) (segmentCount_ st) (activeSegmentIndex_ st)
    (activeSegmentProgress_ st) (segmentIdMap_ st) (activeSegmentId_ st)
    (segments_ st) (firstExpandedSegmentIndex_ st) w
    (storeRtl st) (mutateQueue st) (createdElements st).
Definition set_storeRtl (b : bool) (st : ProgressBar) : ProgressBar :=
  mkProgressBar (isBuilt_ st) (root_ st) (segmentCount_ st) (activeSegmentIndex_ st)
    (activeSegmentProgress_ st) (segmentIdMap_ st) (activeSegmentId_ st)
    (segments_ st) (firstExpandedSegmentIndex_ st) (barWidthPx_ st)
    b (mutateQueue st) (createdElements st).
Definition set_mutateQueue (q : list Task) (st : ProgressBar) : ProgressBar :=
  mkProgressBar (isBuilt_ st) (root_ st) (segmentCount_ st) (activeSegmentIndex_ st)
    (activeSegmentProgress_ st) (segmentIdMap_ st) (activeSegmentId_ st)
    (segments_ st) (firstExpandedSegmentIndex_ st) (barWidthPx_ st)
    (storeRtl st) q (createdElements st).
Definition set_createdElements (n : nat) (st : ProgressBar) : ProgressBar :=
  mkProgressBar (isBuilt_ st) (root_ st) (segmentCount_ st) (activeSegmentIndex_ st)
    (activeSegmentProgress_ st) (segmentIdMap_ st) (activeSegmentId_ st)
    (segments_ st) (firstExpandedSegmentIndex_ st) (barWidthPx_ st)
    (storeRtl st) (mutateQueue st) n.

(** ** Exceptions and the method monad *)

Inductive Error :=
| InvalidSegmentId   (* 'Invalid segment-id passed to progress-bar' *)
| NotAnElement       (* devAssert(this.root_) / dev().assertElement(..) on null *)
| TypeError.         (* a property read or method call on null or undefined *)

Inductive Outcome (A : Type) :=
| Ok (a : A) (st : ProgressBar)
| Throw (e : Error) (st : ProgressBar).
Arguments Ok {A} a st.
Arguments Throw {A} e st.

Definition M (A : Type) : Type := ProgressBar -> Outcome A.

Definition ret {A} (a : A) : M A := fun st => Ok a st.
Definition bind {A B} (c : M A) (k : A -> M B) : M B :=
  fun st => match c st with
            | Ok a st' => k a st'
            | Throw e st' => Throw e st'
            end.
Definition throw {A} (e : Error) : M A := fun st => Throw e st.
Definition gets {A} (f : ProgressBar -> A) : M A := fun st => Ok (f st) st.
Definition modify (f : ProgressBar -> ProgressBar) : M unit := fun st => Ok tt (f st).
Definition when (b : bool) (c : M unit) : M unit := if b then c else ret tt.

#[global] Instance M_ret : MRet M := @ret.
#[global] Instance M_bind : MBind M := fun A B k c => bind c k.

(** The state a call leaves behind, whether it returned or threw. *)
Definition stateOf {A} (o : Outcome A) : ProgressBar :=
  match o with Ok _ st => st | Throw _ st => st end.

Definition threw {A} (o : Outcome A) : option Error :=
  match o with Ok _ _ => None | Throw e _ => Some e end.

(** Modelled from the spec: [devAssert] of [src/log] is not part of this
    file; section 7 of the specification makes a failed assertion fatal, so
    a false condition throws and aborts the callback. *)
Definition devAssert (shouldBeTrueish : bool) (e : Error) : M unit :=
  if shouldBeTrueish then ret tt else throw e.

(** [resources_.mutateElement]: the callback is queued. *)
Definition mutateElement (t : Task) : M unit :=
  modify (fun st => set_mutateQueue (mutateQueue st ++ [t]) st).

(** [forEach] and counted [for] loops. *)
Fixpoint forEach {A} (l : list A) (body : A -> M unit) : M unit :=
  match l with
  | [] => mret tt
  | x :: rest => body x;; forEach rest body
  end.

(** ** The methods *)

Definition getNextEllipsisCount_ (st : ProgressBar) : Z :=
  let nextPagesCount :=
    segmentCount_ st - (firstExpandedSegmentIndex_ st + MAX_SEGMENTS) in
  if 3 <? nextPagesCount then 3 else Z.max nextPagesCount 0.

Definition getPrevEllipsisCount_ (st : ProgressBar) : Z :=
  Z.min 3 (firstExpandedSegmentIndex_ st).

(** The code computes this in doubles, the model in exact rationals: the
    value agrees with the code's up to rounding only, and nothing below
    relies on what rounding changes.  With no segment the divisor is 0:
    JavaScript yields an infinity or NaN, [Qdiv] yields 0; [render_] has no
    segment to apply the width to then. *)
Definition getSegmentWidth_ (st : ProgressBar) : Q :=
  let nextEllipsisCount := getNextEllipsisCount_ st in
  let prevEllipsisCount := getPrevEllipsisCount_ st in
  let totalEllipsisWidth :=
    (nextEllipsisCount + prevEllipsisCount) * (ELLIPSE_WIDTH_PX + SEGMENTS_MARGIN_PX) in
  let totalSegmentsWidth := (barWidthPx_ st - inject_Z totalEllipsisWidth)%Q in
  (totalSegmentsWidth / inject_Z (Z.min (segmentCount_ st) MAX_SEGMENTS)
   - inject_Z SEGMENTS_MARGIN_PX)%Q.

(** The start value of [translateX] in [render_]. *)
Definition initialTranslateX (st : ProgressBar) : Q :=
  inject_Z (- (firstExpandedSegmentIndex_ st - getPrevEllipsisCount_ st)
            * (ELLIPSE_WIDTH_PX + SEGMENTS_MARGIN_PX)).

Definition render_ (shouldAnimate : bool) : M unit :=
  segmentWidth ← gets getSegmentWidth_;
  translateX ← gets initialTranslateX;
  mutateElement (TaskRender segmentWidth translateX shouldAnimate).

Definition replay_ : M unit :=
  modify (set_firstExpanded 0);;
  render_ false.

Definition transform_ (st : ProgressBar) (segment : Node) (translateX width : Q)
  : DomWrite :=
  let translateX := if storeRtl st then (translateX * -1)%Q else translateX in
  SetSegmentTransform segment translateX (width / inject_Z ELLIPSE_WIDTH_PX)%Q.

(** Width of the segment at [index] inside the loop of [render_]. *)
Definition widthAt (st : ProgressBar) (segmentWidth : Q) (index : Z) : Q :=
  if (firstExpandedSegmentIndex_ st <=? index)
     && (index <? firstExpandedSegmentIndex_ st + MAX_SEGMENTS)
  then segmentWidth else inject_Z ELLIPSE_WIDTH_PX.

(** The loop of the mutate callback of [render_], run on the state [st] the
    scheduler finds.  The result is what was written and, when
    [segments_[index]] is [undefined], the exception that stopped the loop. *)
Fixpoint renderLoop (st : ProgressBar) (segmentWidth : Q) (indices : list Z)
    (translateX : Q) : list DomWrite * option Error :=
  match indices with
  | [] => ([], None)
  | index :: rest =>
      let width := widthAt st segmentWidth index in
      match segments_ st !! Z.to_nat index with
      | None => ([], Some TypeError)
      | Some segment =>
          let '(ws, e) :=
            renderLoop st segmentWidth rest
              (translateX + (width + inject_Z SEGMENTS_MARGIN_PX))%Q in
          (transform_ st segment translateX width :: ws, e)
      end
  end.

Definition transitionFor (progress : Q) (withTransition : bool) : Transition :=
  if withTransition then
    if Qeq_bool progress 1 || Qeq_bool progress 0
    then TRANSITION_EASE else TRANSITION_LINEAR
  else TRANSITION_NONE.

(** Running one queued callback. *)
Definition runTask (st : ProgressBar) (t : Task) : list DomWrite * option Error :=
  match t with
  | TaskRender segmentWidth translateX shouldAnimate =>
      match renderLoop st segmentWidth (seqZ 0 (segmentCount_ st)) translateX with
      | (ws, None) => (ws ++ [ToggleAnimateClass shouldAnimate], None)
      | (ws, Some e) => (ws, Some e)
      end
  | TaskSetStyle _ progressEl progress withTransition =>
      match progressEl with
      | Some el =>
          ([SetProgressStyles el progress (transitionFor progress withTransition)], None)
      | None => ([], Some NotAnElement)
      end
  | TaskDir rtlState => ([SetDirAttribute rtlState], None)
  end.

Definition checkIndexForOverflow_ : M unit :=
  st ← gets (fun st => st);
  if firstExpandedSegmentIndex_ st + MAX_SEGMENTS <=? activeSegmentIndex_ st then
    let nextLimit :=
      firstExpandedSegmentIndex_ st + MAX_SEGMENTS + SEGMENT_INCREMENT - 1 in
    modify (set_firstExpanded
      (firstExpandedSegmentIndex_ st +
       (if nextLimit <? segmentCount_ st
        then SEGMENT_INCREMENT
        else segmentCount_ st - (firstExpandedSegmentIndex_ st + MAX_SEGMENTS))));;
    render_ true
  else if activeSegmentIndex_ st <? firstExpandedSegmentIndex_ st then
    modify (set_firstExpanded
      (firstExpandedSegmentIndex_ st -
       (if firstExpandedSegmentIndex_ st - SEGMENT_INCREMENT <? 0
        then firstExpandedSegmentIndex_ st
        else SEGMENT_INCREMENT)));;
    render_ true
  else mret tt.

Definition getRoot : M (list Node) :=
  r ← gets root_;
  match r with
  | Some children => mret children
  | None => throw NotAnElement
  end.

Definition onRtlStateUpdate_ (rtlState : bool) : M unit :=
  getRoot;;
  mutateElement (TaskDir rtlState).

(** The measure callback of [onResize_], run with the measured width of
    the first page. *)
Definition onResize_ (pageWidth : Q) : M unit :=
  modify (set_barWidthPx (pageWidth - inject_Z PROGRESS_BAR_PADDING_PX)%Q);;
  render_ false.

Definition buildSegmentEl_ : M unit :=
  uid ← gets createdElements;
  modify (set_createdElements (S uid));;
  let segmentProgressBar := SegmentBar uid in
  r ← gets root_;
  match r with
  | Some children => modify (set_root (Some (children ++ [segmentProgressBar])))
  | None => throw TypeError
  end;;
  modify (fun st => set_segments (segments_ st ++ [segmentProgressBar]) st).

Definition clear_ : M unit :=
  r ← gets root_;
  match r with
  | Some _ => modify (set_root (Some []))
  | None => throw NotAnElement
  end;;
  modify (set_segmentIdMap ∅);;
  modify (set_segmentCount 0).

Definition addSegment_ (id : string) : M unit :=
  modify (fun st =>
    set_segmentCount (segmentCount_ st + 1)
      (set_segmentIdMap (<[id := segmentCount_ st]> (segmentIdMap_ st)) st));;
  buildSegmentEl_.

Definition hasOwn (m : gmap string Z) (id : string) : bool :=
  bool_decide (is_Some (m !! id)).

Definition assertVaildSegmentId_ (segmentId : string) : M unit :=
  m ← gets segmentIdMap_;
  devAssert (hasOwn m segmentId) InvalidSegmentId.

(** [scopedQuerySelector] with the [nth-child] selector:
    the value element of the [nthChildIndex]-th child of the root. *)
Definition queryProgressValue (children : list Node) (nthChildIndex : Z)
  : option Node :=
  if 1 <=? nthChildIndex
  then progressValueOf <$> children !! Z.to_nat (nthChildIndex - 1)
  else None.

Definition updateProgressByIndex_ (segmentIndex : Z) (progress : Q)
    (withTransition : bool) : M unit :=
  let nthChildIndex := segmentIndex + 1 in
  children ← getRoot;
  let progressEl := queryProgressValue children nthChildIndex in
  mutateElement (TaskSetStyle nthChildIndex progressEl progress withTransition).

Definition getInitialFirstExpandedSegmentIndex_ (segmentIndex : Z) : M unit :=
  n ← gets segmentCount_;
  if (MAX_SEGMENTS <? segmentIndex) && (segmentIndex + MAX_SEGMENTS <? n) then
    modify (set_firstExpanded (segmentIndex - Z.rem segmentIndex MAX_SEGMENTS))
  else if MAX_SEGMENTS <? segmentIndex then
    modify (set_firstExpanded (n - MAX_SEGMENTS))
  else mret tt.

Definition shouldAnimatePreviousSegment
    (activeSegmentIndex : Z) (activeSegmentProgress : Q)
    (prevSegmentIndex : Z) (prevSegmentProgress : Q) : bool :=
  let should := false in
  let should :=
    if Qeq_bool prevSegmentProgress 1 && Qeq_bool activeSegmentProgress 1
    then true else should in
  let should :=
    if (prevSegmentIndex <? activeSegmentIndex)
       && negb (Qeq_bool activeSegmentProgress 1)
    then true else should in
  let should :=
    if (activeSegmentIndex <? prevSegmentIndex)
       && Qeq_bool activeSegmentProgress 1
    then true else should in
  should.

(** The body of the loop of [updateSegments_]. *)
Definition updateSegmentsBody (activeSegmentIndex prevSegmentIndex : Z)
    (should : bool) (i : Z) : M unit :=
  if i =? activeSegmentIndex then mret tt
  else
    let progress := if i <? activeSegmentIndex then 1%Q else 0%Q in
    let withTransition := if should then i =? prevSegmentIndex else false in
    updateProgressByIndex_ i progress withTransition.

Definition updateSegments_ (activeSegmentIndex : Z) (activeSegmentProgress : Q)
    (prevSegmentIndex : Z) (prevSegmentProgress : Q) : M unit :=
  let should :=
    shouldAnimatePreviousSegment activeSegmentIndex activeSegmentProgress
      prevSegmentIndex prevSegmentProgress in
  n ← gets segmentCount_;
  forEach (seqZ 0 n) (updateSegmentsBody activeSegmentIndex prevSegmentIndex should).

Definition updateProgress (segmentId : string) (progress : Q)
    (updateAllSegments : bool) : M unit :=
  assertVaildSegmentId_ segmentId;;
  m ← gets segmentIdMap_;
  (* past the assertion the key is present; [default] is never used *)
  let segmentIndex := default 0 (m !! segmentId) in
  updateProgressByIndex_ segmentIndex progress true;;
  prevIndex ← gets activeSegmentIndex_;
  when (prevIndex =? 0)
    (getInitialFirstExpandedSegmentIndex_ segmentIndex;;
     render_ false);;
  prevIndex ← gets activeSegmentIndex_;
  prevProgress ← gets activeSegmentProgress_;
  when (negb (prevIndex =? segmentIndex) || updateAllSegments)
    (updateSegments_ segmentIndex progress prevIndex prevProgress);;
  modify (set_active segmentIndex progress segmentId);;
  checkIndexForOverflow_.

(** The callback subscribed to [StateProperty.PAGE_IDS]; first the body of
    its [forEach]. *)
Definition addSegmentIfNew (id : string) : M unit :=
  m ← gets segmentIdMap_;
  when (negb (hasOwn m id)) (addSegment_ id).

Definition onPageIds (pageIds : list string) : M unit :=
  built ← gets isBuilt_;
  when built clear_;;
  forEach pageIds addSegmentIfNew;;
  built ← gets isBuilt_;
  when built
    (id ← gets activeSegmentId_;
     progress ← gets activeSegmentProgress_;
     updateProgress id progress true).

(** [build], given what its collaborators deliver while it runs: the page
    ids held by the store and the width the measure callback reads.  Both
    exits are [return this.getRoot()]: the assertion of [getRoot] is made,
    and the root is returned, as the list of its children. *)
Definition build (pageIds : list string) (pageWidth : Q) : M (list Node) :=
  built ← gets isBuilt_;
  if (built : bool) then getRoot
  else
    modify (set_root (Some []));;
    onPageIds pageIds;;
    rtlState ← gets storeRtl;
    onRtlStateUpdate_ rtlState;;
    modify (set_barWidthPx (pageWidth - inject_Z PROGRESS_BAR_PADDING_PX)%Q);;
    modify (set_isBuilt true);;
    getRoot.

(** ** Callbacks delivered by the host *)

Inductive Event :=
| EvBuild (pageIds : list string) (pageWidth : Q)
| EvPageIds (pageIds : list string)
| EvRtl (rtlState : bool)
| EvResize (pageWidth : Q)
| EvReplay
| EvUpdateProgress (segmentId : string) (progress : Q) (updateAllSegments : bool)
| EvMutatePhase.

(** The subscriptions and listeners exist once [build] has run. *)
Definition handle (ev : Event) : M unit :=
  match ev with
  | EvBuild pageIds pageWidth => build pageIds pageWidth;; mret tt
  | EvPageIds pageIds =>
      built ← gets isBuilt_; when built (onPageIds pageIds)
  | EvRtl rtlState =>
      modify (set_storeRtl rtlState);;
      built ← gets isBuilt_; when built (onRtlStateUpdate_ rtlState)
  | EvResize pageWidth =>
      built ← gets isBuilt_; when built (onResize_ pageWidth)
  | EvReplay =>
      built ← gets isBuilt_; when built replay_
  | EvUpdateProgress segmentId progress updateAllSegments =>
      updateProgress segmentId progress updateAllSegments
  | EvMutatePhase => modify (set_mutateQueue [])
  end.

Definition step (st : ProgressBar) (ev : Event) : ProgressBar :=
  stateOf (handle ev st).

Definition run (evs : list Event) (st : ProgressBar) : ProgressBar :=
  fold_left step evs st.

(** States the bar can be in: those a sequence of callbacks leads to from
    the constructor. *)
Definition reachable (st : ProgressBar) : Prop :=
  exists evs, st = run evs newProgressBar.

(** The operations the specification names, as the code performs them:
    [reset] is [clear_], [addSegment] the guarded [addSegment_] of the page
    id callback. *)
Inductive Op :=
| Reset
| AddSegment (id : string)
| UpdateProgress (segmentId : string) (progress : Q) (updateAllSegments : bool).

Definition perform (op : Op) : M unit :=
  match op with
  | Reset => clear_
  | AddSegment id => addSegmentIfNew id
  | UpdateProgress segmentId progress updateAllSegments =>
      updateProgress segmentId progress updateAllSegments
  end.

Definition performAll (ops : list Op) (st : ProgressBar) : ProgressBar :=
  fold_left (fun st op => stateOf (perform op st)) ops st.

(** A bar that was built while the store held no page id. *)
Definition builtBar : ProgressBar := run [EvBuild [] 364] newProgressBar.

(** Page ids for examples: "A", "B", ... *)
Definition pageId (n : nat) : string :=
  String (Ascii.ascii_of_nat (65 + n)) EmptyString.
Definition pageIds (n : nat) : list string := map pageId (seq 0 n).

(** * Notions used in the statements *)

(** ** What a method leaves behind *)

(** The state with the callbacks [ts] added to the scheduler's queue. *)
Definition enqueue (ts : list Task) (st : ProgressBar) : ProgressBar :=
  set_mutateQueue (mutateQueue st ++ ts) st.

(** The callback [render_] queues on [st]. *)
Definition renderTask (shouldAnimate : bool) (st : ProgressBar) : Task :=
  TaskRender (getSegmentWidth_ st) (initialTranslateX st) shouldAnimate.

(** The window start chosen by [checkIndexForOverflow_]. *)
Definition overflowFirst (active first n : Z) : Z :=
  if first + MAX_SEGMENTS <=? active then
    first + (if first + MAX_SEGMENTS + SEGMENT_INCREMENT - 1 <? n
             then SEGMENT_INCREMENT else n - (first + MAX_SEGMENTS))
  else if active <? first then
    first - (if first - SEGMENT_INCREMENT <? 0 then first else SEGMENT_INCREMENT)
  else first.

(** Whether [checkIndexForOverflow_] takes one of its two branches. *)
Definition overflowMoves (active first : Z) : bool :=
  (first + MAX_SEGMENTS <=? active) || (active <? first).

(** The window start chosen by [getInitialFirstExpandedSegmentIndex_]. *)
Definition initialFirst (segmentIndex first n : Z) : Z :=
  if (MAX_SEGMENTS <? segmentIndex) && (segmentIndex + MAX_SEGMENTS <? n) then
    segmentIndex - Z.rem segmentIndex MAX_SEGMENTS
  else if MAX_SEGMENTS <? segmentIndex then n - MAX_SEGMENTS
  else first.

(** The callback [updateProgressByIndex_] queues for segment [i]. *)
Definition styleTask (children : list Node) (i : Z) (progress : Q)
    (withTransition : bool) : Task :=
  TaskSetStyle (i + 1) (queryProgressValue children (i + 1)) progress withTransition.

(** The callbacks queued by the loop of [updateSegments_]. *)
Fixpoint segmentTasks (children : list Node) (active prev : Z) (should : bool)
    (indices : list Z) : list Task :=
  match indices with
  | [] => []
  | i :: rest =>
      (if i =? active then []
       else [styleTask children i
               (if i <? active then 1%Q else 0%Q)
               (if should then i =? prev else false)])
      ++ segmentTasks children active prev should rest
  end.

(** The state after the third statement of [updateProgress]. *)
Definition afterInitial (i : Z) (st : ProgressBar) : ProgressBar :=
  if activeSegmentIndex_ st =? 0 then
    let st' := set_firstExpanded
      (initialFirst i (firstExpandedSegmentIndex_ st) (segmentCount_ st)) st in
    enqueue [renderTask false st'] st'
  else st.

(** The state after its fourth statement. *)
Definition afterSync (children : list Node) (i : Z) (p : Q) (updateAll : bool)
    (st : ProgressBar) : ProgressBar :=
  if negb (activeSegmentIndex_ st =? i) || updateAll then
    enqueue (segmentTasks children i (activeSegmentIndex_ st)
               (shouldAnimatePreviousSegment i p (activeSegmentIndex_ st)
                  (activeSegmentProgress_ st))
               (seqZ 0 (segmentCount_ st))) st
  else st.

(** What a successful [updateProgress] leaves: the window start before and
    after [checkIndexForOverflow_], and the callbacks it queued. *)
Definition firstAfterInitial (i : Z) (st : ProgressBar) : Z :=
  if activeSegmentIndex_ st =? 0
  then initialFirst i (firstExpandedSegmentIndex_ st) (segmentCount_ st)
  else firstExpandedSegmentIndex_ st.

Definition firstAfterUpdate (i : Z) (st : ProgressBar) : Z :=
  overflowFirst i (firstAfterInitial i st) (segmentCount_ st).

Definition initialRenderTasks (i : Z) (st : ProgressBar) : list Task :=
  if activeSegmentIndex_ st =? 0
  then [renderTask false (set_firstExpanded (firstAfterInitial i st) st)]
  else [].

Definition syncTasks (children : list Node) (i : Z) (p : Q) (updateAll : bool)
    (st : ProgressBar) : list Task :=
  if negb (activeSegmentIndex_ st =? i) || updateAll then
    segmentTasks children i (activeSegmentIndex_ st)
      (shouldAnimatePreviousSegment i p (activeSegmentIndex_ st)
         (activeSegmentProgress_ st))
      (seqZ 0 (segmentCount_ st))
  else [].

Definition overflowRenderTasks (i : Z) (st : ProgressBar) : list Task :=
  if overflowMoves i (firstAfterInitial i st)
  then [renderTask true (set_firstExpanded (firstAfterUpdate i st) st)]
  else [].

Definition updateProgressTasks (children : list Node) (i : Z) (p : Q)
    (updateAll : bool) (st : ProgressBar) : list Task :=
  styleTask children i p true :: initialRenderTasks i st
  ++ syncTasks children i p updateAll st ++ overflowRenderTasks i st.

(** The callbacks queued between two states. *)
Definition queuedBy (st st' : ProgressBar) : list Task :=
  drop (length (mutateQueue st)) (mutateQueue st').

(** The style callbacks among [ts], in order. *)
Fixpoint styleTasksOf (ts : list Task) : list Task :=
  match ts with
  | [] => []
  | TaskSetStyle k el q w :: rest => TaskSetStyle k el q w :: styleTasksOf rest
  | _ :: rest => styleTasksOf rest
  end.

(** A bar for two pages, after a first update for page "A". *)
Definition twoPages : ProgressBar :=
  run [EvBuild ["A"; "B"] 364; EvUpdateProgress "A" 1 false] newProgressBar.

(** The three cases in which the specification lets the previously active
    segment animate. *)
Definition animateCondition (active : Z) (p : Q) (prev : Z) (prevP : Q) : Prop :=
  (prevP == 1 /\ p == 1)%Q
  \/ (prev < active /\ ~ (p == 1)%Q)
  \/ (active < prev /\ (p == 1)%Q).

(** The specification's [checkOverflow], in its words: forward by
    [recenterStep] or up to the end of the segments, backward by
    [recenterStep] but not below 0. *)
Definition checkOverflowSpec (activeIndex firstVisibleIndex segmentCount : Z) : Z :=
  if firstVisibleIndex + MAX_SEGMENTS <=? activeIndex then
    if firstVisibleIndex + MAX_SEGMENTS + SEGMENT_INCREMENT - 1 <? segmentCount
    then firstVisibleIndex + SEGMENT_INCREMENT
    else segmentCount - MAX_SEGMENTS
  else if activeIndex <? firstVisibleIndex then
    Z.max 0 (firstVisibleIndex - SEGMENT_INCREMENT)
  else firstVisibleIndex.

(** The specification's [initialWindowFor], in its words. *)
Definition initialWindowSpec (activeIndex segmentCount current : Z) : Z :=
  if (MAX_SEGMENTS <? activeIndex) && (activeIndex + MAX_SEGMENTS <? segmentCount)
  then activeIndex - activeIndex `mod` MAX_SEGMENTS
  else if MAX_SEGMENTS <? activeIndex then segmentCount - MAX_SEGMENTS
  else current.

(** A bar for fifty pages, not yet updated. *)
Definition fiftyPages : ProgressBar :=
  run [EvBuild (pageIds 50) 364] newProgressBar.

(** The render callbacks without animation among [ts], in order. *)
Fixpoint staticRendersOf (ts : list Task) : list Task :=
  match ts with
  | [] => []
  | TaskRender w x false :: rest => TaskRender w x false :: staticRendersOf rest
  | _ :: rest => staticRendersOf rest
  end.

(** Whether a call of [updateProgress] on [st] queues the render without
    animation, which only its third statement does. *)
Definition forcesInitialRelayout (st : ProgressBar) (id : string) (p : Q)
    (ua : bool) : bool :=
  match staticRendersOf (queuedBy st (stateOf (updateProgress id p ua st))) with
  | [] => false
  | _ :: _ => true
  end.

(** In the words of the specification: no [updateProgress] was called since
    the last [reset]. *)
Definition firstUpdateSinceReset (history : list Op) : bool :=
  fold_left (fun fresh op =>
               match op with
               | Reset => true
               | AddSegment _ => fresh
               | UpdateProgress _ _ _ => false
               end) history true.

(** A write with its horizontal offset negated. *)
Definition mirror (w : DomWrite) : DomWrite :=
  match w with
  | SetSegmentTransform segment translateX scaleX =>
      SetSegmentTransform segment (translateX * -1)%Q scaleX
  | _ => w
  end.

(** The state after [addSegment_ id] on a bar whose root has [children]. *)
Definition addedSegment (id : string) (children : list Node) (st : ProgressBar)
  : ProgressBar :=
  let segmentProgressBar := SegmentBar (createdElements st) in
  mkProgressBar (isBuilt_ st) (Some (children ++ [segmentProgressBar]))
    (segmentCount_ st + 1) (activeSegmentIndex_ st) (activeSegmentProgress_ st)
    (<[id := segmentCount_ st]> (segmentIdMap_ st)) (activeSegmentId_ st)
    (segments_ st ++ [segmentProgressBar]) (firstExpandedSegmentIndex_ st)
    (barWidthPx_ st) (storeRtl st) (mutateQueue st) (S (createdElements st)).

(** The state after the [forEach] of the page id callback. *)
Definition addAll (ids : list string) (st : ProgressBar) : ProgressBar :=
  stateOf (forEach ids addSegmentIfNew st).

(** The state [build] leaves when the bar was not built before. *)
Definition builtFrom (ids : list string) (w : Q) (st : ProgressBar) : ProgressBar :=
  let st1 := addAll ids (set_root (Some []) st) in
  set_isBuilt true
    (set_barWidthPx (w - inject_Z PROGRESS_BAR_PADDING_PX)%Q
       (enqueue [TaskDir (storeRtl st1)] st1)).

(** The id map is a bijection between the registered ids and the indices
    below the segment count. *)
Record registryOk (st : ProgressBar) : Prop := {
  reg_count : 0 <= segmentCount_ st;
  reg_range : forall id i,
    segmentIdMap_ st !! id = Some i -> 0 <= i < segmentCount_ st;
  reg_inj : forall id id' i,
    segmentIdMap_ st !! id = Some i -> segmentIdMap_ st !! id' = Some i -> id = id';
  reg_surj : forall i,
    0 <= i < segmentCount_ st -> exists id, segmentIdMap_ st !! id = Some i
}.

(** What [addSegment_] does not touch, and how the child list of the root
    and [segments_] grow together. *)
Record sameBar (st st' : ProgressBar) : Prop := {
  same_isBuilt : isBuilt_ st' = isBuilt_ st;
  same_activeIndex : activeSegmentIndex_ st' = activeSegmentIndex_ st;
  same_activeProgress : activeSegmentProgress_ st' = activeSegmentProgress_ st;
  same_activeId : activeSegmentId_ st' = activeSegmentId_ st;
  same_first : firstExpandedSegmentIndex_ st' = firstExpandedSegmentIndex_ st;
  same_width : barWidthPx_ st' = barWidthPx_ st;
  same_rtl : storeRtl st' = storeRtl st
}.

(** The state after [clear_] on a bar that has a root. *)
Definition cleared (st : ProgressBar) : ProgressBar :=
  set_segmentCount 0 (set_segmentIdMap ∅ (set_root (Some []) st)).

(** The window starts at 0 or fits into the segments. *)
Definition windowOk (st : ProgressBar) : Prop :=
  0 <= firstExpandedSegmentIndex_ st
  /\ (firstExpandedSegmentIndex_ st = 0
      \/ firstExpandedSegmentIndex_ st + MAX_SEGMENTS <= segmentCount_ st).

(** What every callback preserves, provided it does not lower the segment
    count. *)
Record barOk (st : ProgressBar) : Prop := {
  ok_registry : registryOk st;
  ok_window : windowOk st;
  ok_root : isBuilt_ st = true -> is_Some (root_ st)
}.

(** No callback of the sequence leaves fewer segments than it found. *)
Fixpoint neverShrinks (evs : list Event) (st : ProgressBar) : bool :=
  match evs with
  | [] => true
  | ev :: rest =>
      (segmentCount_ st <=? segmentCount_ (step st ev))
      && neverShrinks rest (step st ev)
  end.

(** A story whose page list grows from 30 to 50 pages while it plays. *)
Definition growingStory : list Event :=
  [EvBuild (pageIds 30) 364; EvUpdateProgress (pageId 25) 1 false;
   EvPageIds (pageIds 50); EvUpdateProgress (pageId 49) (1 # 2) false;
   EvReplay; EvResize 400; EvRtl true; EvMutatePhase].

(** Fifty pages, the window moved to 30, then a page list of one page,
    and of 46 pages. *)
Definition shrunkToOne : ProgressBar :=
  run [EvBuild (pageIds 50) 364; EvUpdateProgress (pageId 45) 1 false;
       EvPageIds [pageId 45]] newProgressBar.

Definition shrunkTo46 : ProgressBar :=
  run [EvBuild (pageIds 50) 364; EvUpdateProgress (pageId 45) 1 false;
       EvPageIds (pageIds 46)] newProgressBar.

(** The bar right after [build], the store holding the page ids [ids]. *)
Definition freshBar (ids : list string) (w : Q) : ProgressBar :=
  run [EvBuild ids w] newProgressBar.

(** Progress updates for the pages in order, each with its own progress
    value and flag. *)
Definition walk (ids : list string) (args : list (Q * bool)) : list Event :=
  zip_with (fun id a => EvUpdateProgress id a.1 a.2) ids args.

(** The state before the update for page [k] of [n]. *)
Definition walking (n : Z) (m : gmap string Z) (k : Z) (st : ProgressBar) : Prop :=
  segmentCount_ st = n /\ segmentIdMap_ st = m /\ is_Some (root_ st)
  /\ activeSegmentIndex_ st = Z.max 0 (k - 1)
  /\ 0 <= firstExpandedSegmentIndex_ st <= n - MAX_SEGMENTS
  /\ firstExpandedSegmentIndex_ st <= k <= firstExpandedSegmentIndex_ st + MAX_SEGMENTS.

(** ** The registry and the document *)

(** What every callback keeps, whatever page ids the store delivers: the id
    map is a bijection onto the indices, an unbuilt bar has no root and no
    segment, the root has one child per segment, and [segments_] holds at
    least as many elements. *)
Record domOk (st : ProgressBar) : Prop := {
  dom_registry : registryOk st;
  dom_built : isBuilt_ st = true -> is_Some (root_ st);
  dom_unbuilt : isBuilt_ st = false -> root_ st = None /\ segmentCount_ st = 0;
  dom_children : forall children,
    root_ st = Some children -> Z.of_nat (length children) = segmentCount_ st;
  dom_segments : segmentCount_ st <= Z.of_nat (length (segments_ st))
}.

(** The story of [growingStory], stopped after the second progress update. *)
Definition playingStory : ProgressBar :=
  run (take 4 growingStory) newProgressBar.

(** The same progress update, made [m] times in a row. *)
Fixpoint repeatUpdate (m : nat) (id : string) (p : Q) (ua : bool)
    (st : ProgressBar) : ProgressBar :=
  match m with
  | O => st
  | S m' => repeatUpdate m' id p ua (stateOf (updateProgress id p ua st))
  end.

(** How far segment [i] lies outside the window: 0 inside it. *)
Definition windowDistance (i : Z) (st : ProgressBar) : Z :=
  Z.max (i - (firstExpandedSegmentIndex_ st + MAX_SEGMENTS - 1)) 0
  + Z.max (firstExpandedSegmentIndex_ st - i) 0.

(** * Properties *)

(** ** Stepping through method bodies *)

Ltac unfold_monad :=
  unfold mbind, M_bind, bind, mret, M_ret, ret, gets, modify, throw, when,
    devAssert, mutateElement in *.

Lemma mbind_eq {A B} (c : M A) (k : A -> M B) st :
  (c ≫= k) st =
  match c st with Ok a st' => k a st' | Throw e st' => Throw e st' end.
Proof. reflexivity. Qed.

Lemma gets_eq {A} (f : ProgressBar -> A) st : gets f st = Ok (f st) st.
Proof. reflexivity. Qed.

Lemma modify_eq f st : modify f st = Ok tt (f st).
Proof. reflexivity. Qed.

Lemma mret_eq {A} (a : A) st : (mret a : M A) st = Ok a st.
Proof. reflexivity. Qed.

Ltac mstep :=
  first [ rewrite gets_eq | rewrite modify_eq | rewrite mret_eq
        | rewrite mbind_eq ];
  cbv beta iota.
Ltac msimpl := repeat mstep.

Lemma enqueue_nil st : enqueue [] st = st.
Proof. destruct st; unfold enqueue, set_mutateQueue; simpl. by rewrite app_nil_r. Qed.

Lemma enqueue_enqueue ts1 ts2 st :
  enqueue ts2 (enqueue ts1 st) = enqueue (ts1 ++ ts2) st.
Proof. destruct st; unfold enqueue, set_mutateQueue; simpl. by rewrite app_assoc. Qed.

Lemma render_eq b st : render_ b st = Ok tt (enqueue [renderTask b st] st).
Proof. reflexivity. Qed.

Lemma checkIndexForOverflow_eq st :
  checkIndexForOverflow_ st =
  Ok tt
    (if overflowMoves (activeSegmentIndex_ st) (firstExpandedSegmentIndex_ st)
     then
       let st' := set_firstExpanded
         (overflowFirst (activeSegmentIndex_ st) (firstExpandedSegmentIndex_ st)
            (segmentCount_ st)) st in
       enqueue [renderTask true st'] st'
     else st).
Proof.
  unfold checkIndexForOverflow_, overflowMoves, overflowFirst. unfold_monad.
  destruct (_ <=? activeSegmentIndex_ st); simpl; [reflexivity|].
  destruct (activeSegmentIndex_ st <? _); reflexivity.
Qed.

Lemma set_firstExpanded_same st :
  set_firstExpanded (firstExpandedSegmentIndex_ st) st = st.
Proof. by destruct st. Qed.

Lemma getInitialFirstExpandedSegmentIndex_eq i st :
  getInitialFirstExpandedSegmentIndex_ i st =
  Ok tt (set_firstExpanded
           (initialFirst i (firstExpandedSegmentIndex_ st) (segmentCount_ st)) st).
Proof.
  unfold getInitialFirstExpandedSegmentIndex_, initialFirst. unfold_monad.
  destruct (_ && _); [reflexivity|].
  destruct (_ <? i); [reflexivity|].
  by rewrite set_firstExpanded_same.
Qed.

Lemma updateProgressByIndex_eq i p w st :
  updateProgressByIndex_ i p w st =
  match root_ st with
  | Some children => Ok tt (enqueue [styleTask children i p w] st)
  | None => Throw NotAnElement st
  end.
Proof.
  unfold updateProgressByIndex_, getRoot. unfold_monad.
  by destruct (root_ st).
Qed.

Lemma root_enqueue ts st : root_ (enqueue ts st) = root_ st.
Proof. reflexivity. Qed.

Lemma updateSegments_loop children active prev should indices st :
  root_ st = Some children ->
  forEach indices (updateSegmentsBody active prev should) st =
  Ok tt (enqueue (segmentTasks children active prev should indices) st).
Proof.
  revert st. induction indices as [|i rest IH]; intros st Hroot.
  - simpl. by rewrite enqueue_nil.
  - cbn [forEach]. unfold mbind, M_bind, bind.
    unfold updateSegmentsBody at 1. cbn [segmentTasks].
    destruct (i =? active).
    + unfold mret, M_ret, ret. by apply IH.
    + rewrite updateProgressByIndex_eq, Hroot.
      rewrite IH by done. by rewrite enqueue_enqueue.
Qed.

Lemma updateSegments_eq active p prev prevP children st :
  root_ st = Some children ->
  updateSegments_ active p prev prevP st =
  Ok tt (enqueue (segmentTasks children active prev
                    (shouldAnimatePreviousSegment active p prev prevP)
                    (seqZ 0 (segmentCount_ st))) st).
Proof.
  intros Hroot. unfold updateSegments_. unfold mbind, M_bind, bind, gets.
  by apply updateSegments_loop.
Qed.

Lemma root_afterInitial i st : root_ (afterInitial i st) = root_ st.
Proof. unfold afterInitial. by destruct (_ =? 0). Qed.

Lemma updateProgress_eq id p ua st :
  updateProgress id p ua st =
  match segmentIdMap_ st !! id with
  | None => Throw InvalidSegmentId st
  | Some i =>
      match root_ st with
      | None => Throw NotAnElement st
      | Some children =>
          checkIndexForOverflow_
            (set_active i p id
               (afterSync children i p ua
                  (afterInitial i (enqueue [styleTask children i p true] st))))
      end
  end.
Proof.
  unfold updateProgress, assertVaildSegmentId_, hasOwn.
  msimpl. unfold devAssert.
  destruct (segmentIdMap_ st !! id) as [i|] eqn:Hid.
  2:{ rewrite bool_decide_eq_false_2; [reflexivity|]. by intros [? ?]. }
  rewrite bool_decide_eq_true_2 by eauto.
  msimpl. rewrite Hid. cbn [default from_option Datatypes.id].
  rewrite updateProgressByIndex_eq.
  destruct (root_ st) as [children|] eqn:Hroot; [|reflexivity].
  cbv beta iota. set (s1 := enqueue _ st).
  msimpl.
  assert (Hinit : when (activeSegmentIndex_ s1 =? 0)
                    (getInitialFirstExpandedSegmentIndex_ i;; render_ false) s1
                  = Ok tt (afterInitial i s1)).
  { unfold when, afterInitial. destruct (_ =? 0); [|reflexivity].
    mstep. by rewrite getInitialFirstExpandedSegmentIndex_eq, render_eq. }
  rewrite Hinit. cbv beta iota. set (s2 := afterInitial i s1).
  msimpl.
  assert (Hsync : when (negb (activeSegmentIndex_ s2 =? i) || ua)
                    (updateSegments_ i p (activeSegmentIndex_ s2)
                       (activeSegmentProgress_ s2)) s2
                  = Ok tt (afterSync children i p ua s2)).
  { unfold when, afterSync. destruct (_ || _); [|reflexivity].
    apply updateSegments_eq. subst s2. by rewrite root_afterInitial. }
  rewrite Hsync. cbv beta iota.
  by msimpl.
Qed.

Lemma overflowFirst_stays a f n : overflowMoves a f = false -> overflowFirst a f n = f.
Proof.
  unfold overflowMoves, overflowFirst. intros H.
  apply orb_false_iff in H as [-> ->]. reflexivity.
Qed.

Ltac fields :=
  cbn [isBuilt_ root_ segmentCount_ activeSegmentIndex_ activeSegmentProgress_
       segmentIdMap_ activeSegmentId_ segments_ firstExpandedSegmentIndex_
       barWidthPx_ storeRtl mutateQueue createdElements
       set_isBuilt set_root set_segmentCount set_active set_segmentIdMap
       set_segments set_firstExpanded set_barWidthPx set_storeRtl
       set_mutateQueue set_createdElements enqueue stateOf threw] in *.

Lemma renderTask_frame b st st' :
  segmentCount_ st' = segmentCount_ st ->
  firstExpandedSegmentIndex_ st' = firstExpandedSegmentIndex_ st ->
  barWidthPx_ st' = barWidthPx_ st ->
  renderTask b st' = renderTask b st.
Proof.
  intros Hn Hf Hw.
  unfold renderTask, getSegmentWidth_, initialTranslateX,
    getNextEllipsisCount_, getPrevEllipsisCount_.
  by rewrite Hn, Hf, Hw.
Qed.

Lemma afterInitial_eq i st :
  afterInitial i st =
  enqueue (initialRenderTasks i st) (set_firstExpanded (firstAfterInitial i st) st).
Proof.
  unfold afterInitial, initialRenderTasks, firstAfterInitial.
  destruct (activeSegmentIndex_ st =? 0); [reflexivity|].
  by rewrite set_firstExpanded_same, enqueue_nil.
Qed.

Lemma afterSync_eq children i p ua st :
  afterSync children i p ua st = enqueue (syncTasks children i p ua st) st.
Proof.
  unfold afterSync, syncTasks. destruct (_ || _); [reflexivity|].
  by rewrite enqueue_nil.
Qed.

Lemma updateProgress_ok id p ua st i children :
  segmentIdMap_ st !! id = Some i ->
  root_ st = Some children ->
  updateProgress id p ua st =
  Ok tt (enqueue (updateProgressTasks children i p ua st)
           (set_active i p id (set_firstExpanded (firstAfterUpdate i st) st))).
Proof.
  intros Hid Hroot. rewrite updateProgress_eq, Hid, Hroot.
  rewrite checkIndexForOverflow_eq. f_equal.
  rewrite afterSync_eq, afterInitial_eq.
  set (s1 := enqueue [styleTask children i p true] st).
  assert (H1 : initialRenderTasks i s1 = initialRenderTasks i st) by reflexivity.
  assert (H2 : firstAfterInitial i s1 = firstAfterInitial i st) by reflexivity.
  rewrite H1, H2.
  set (s2 := enqueue _ (set_firstExpanded _ s1)).
  assert (H3 : syncTasks children i p ua s2 = syncTasks children i p ua st)
    by reflexivity.
  rewrite H3.
  set (s4 := set_active i p id (enqueue _ s2)).
  change (activeSegmentIndex_ s4) with i.
  change (firstExpandedSegmentIndex_ s4) with (firstAfterInitial i st).
  change (segmentCount_ s4) with (segmentCount_ st).
  fold (firstAfterUpdate i st).
  unfold updateProgressTasks, overflowRenderTasks.
  destruct (overflowMoves i (firstAfterInitial i st)) eqn:Hmov.
  - cbv zeta.
    rewrite (renderTask_frame true (set_firstExpanded (firstAfterUpdate i st) s4)
               (set_firstExpanded (firstAfterUpdate i st) st))
      by reflexivity.
    subst s4 s2 s1. destruct st. unfold enqueue. fields.
    rewrite <- !app_assoc. reflexivity.
  - unfold firstAfterUpdate. rewrite (overflowFirst_stays _ _ _ Hmov).
    subst s4 s2 s1. destruct st. unfold enqueue. fields.
    rewrite <- !app_assoc, app_nil_r. reflexivity.
Qed.

Lemma queuedBy_enqueue ts st st' :
  mutateQueue st' = mutateQueue st -> queuedBy st (enqueue ts st') = ts.
Proof.
  intros H. unfold queuedBy, enqueue. destruct st'; cbn in *. subst.
  by rewrite drop_app_length.
Qed.

Lemma queuedBy_updateProgress id p ua st i children :
  segmentIdMap_ st !! id = Some i ->
  root_ st = Some children ->
  queuedBy st (stateOf (updateProgress id p ua st)) =
  updateProgressTasks children i p ua st.
Proof.
  intros Hid Hroot. rewrite (updateProgress_ok _ _ _ _ _ _ Hid Hroot).
  cbn [stateOf]. by apply queuedBy_enqueue.
Qed.

Lemma clear_eq st :
  clear_ st =
  match root_ st with
  | Some _ =>
      Ok tt (set_segmentCount 0 (set_segmentIdMap ∅ (set_root (Some []) st)))
  | None => Throw NotAnElement st
  end.
Proof. unfold clear_. msimpl. by destruct (root_ st). Qed.

(** ** Unknown segment ids *)

(** C8. [updateProgress] throws the invalid-segment-id assertion exactly
    when the id is not a key of [segmentIdMap_] -- which is the case for
    every id in a new bar and after [clear_] --, and then the state at the
    throw is the state before the call: nothing was queued for any segment
    and neither the active segment nor the window changed. *)
Theorem updateProgress_unknown_segment id p ua st :
  (threw (updateProgress id p ua st) = Some InvalidSegmentId
   <-> segmentIdMap_ st !! id = None)
  /\ (segmentIdMap_ st !! id = None ->
      updateProgress id p ua st = Throw InvalidSegmentId st)
  /\ (forall st0, clear_ st0 = Ok tt st -> segmentIdMap_ st !! id = None)
  /\ segmentIdMap_ newProgressBar !! id = None.
Proof.
  split; [|split; [|split]].
  - rewrite updateProgress_eq.
    destruct (segmentIdMap_ st !! id) as [i|]; [|done].
    destruct (root_ st); [|done].
    rewrite checkIndexForOverflow_eq. done.
  - intros H. by rewrite updateProgress_eq, H.
  - intros st0. rewrite clear_eq. destruct (root_ st0); [|done].
    intros [= <-]. cbn. apply lookup_empty.
  - apply lookup_empty.
Qed.

(** ** Which fills a progress update writes *)

Lemma styleTasksOf_app ts1 ts2 :
  styleTasksOf (ts1 ++ ts2) = styleTasksOf ts1 ++ styleTasksOf ts2.
Proof.
  induction ts1 as [|[] ts1 IH]; cbn; [done|by rewrite ?IH..].
Qed.

Lemma styleTasksOf_initialRenderTasks i st :
  styleTasksOf (initialRenderTasks i st) = [].
Proof. unfold initialRenderTasks. by destruct (_ =? 0). Qed.

Lemma styleTasksOf_overflowRenderTasks i st :
  styleTasksOf (overflowRenderTasks i st) = [].
Proof. unfold overflowRenderTasks. by destruct (overflowMoves _ _). Qed.

Lemma styleTasksOf_segmentTasks children a prev should l :
  styleTasksOf (segmentTasks children a prev should l) =
  segmentTasks children a prev should l.
Proof.
  induction l as [|j l IH]; [done|]. cbn [segmentTasks].
  rewrite styleTasksOf_app, IH. by destruct (j =? a).
Qed.

Lemma styleTasksOf_updateProgressTasks children i p ua st :
  styleTasksOf (updateProgressTasks children i p ua st) =
  styleTask children i p true :: syncTasks children i p ua st.
Proof.
  unfold updateProgressTasks. cbn [styleTasksOf styleTask].
  rewrite !styleTasksOf_app, styleTasksOf_initialRenderTasks,
    styleTasksOf_overflowRenderTasks, app_nil_r. cbn [app]. f_equal.
  unfold syncTasks. destruct (_ || _); [|done].
  apply styleTasksOf_segmentTasks.
Qed.

(** C10. A progress update for the segment that is already the active one,
    with [updateAllSegments] false, queues exactly one style write: the one
    for that segment (child [i + 1] of the root), carrying the new progress.
    The loop of [updateSegments_] does not run, so no fill value and no
    transition of another segment is written. *)
Theorem updateProgress_same_segment_writes_only_active id p st i children :
  segmentIdMap_ st !! id = Some i ->
  root_ st = Some children ->
  activeSegmentIndex_ st = i ->
  threw (updateProgress id p false st) = None
  /\ styleTasksOf (queuedBy st (stateOf (updateProgress id p false st))) =
     [TaskSetStyle (i + 1) (queryProgressValue children (i + 1)) p true].
Proof.
  intros Hid Hroot Hact. split.
  - by rewrite (updateProgress_ok _ _ _ _ _ _ Hid Hroot).
  - rewrite (queuedBy_updateProgress _ _ _ _ _ _ Hid Hroot).
    rewrite styleTasksOf_updateProgressTasks. unfold syncTasks.
    rewrite Hact, Z.eqb_refl. reflexivity.
Qed.

Lemma updateProgress_same_segment_witness :
  threw (updateProgress "A" (1 # 2) false twoPages) = None
  /\ styleTasksOf
       (queuedBy twoPages (stateOf (updateProgress "A" (1 # 2) false twoPages))) =
     [TaskSetStyle 1 (Some (ProgressValue 0)) (1 # 2) true].
Proof.
  apply (updateProgress_same_segment_writes_only_active
           "A" (1 # 2) twoPages 0 [SegmentBar 0; SegmentBar 1]);
    vm_compute; reflexivity.
Defined.

Lemma shouldAnimatePreviousSegment_iff active p prev prevP :
  shouldAnimatePreviousSegment active p prev prevP = true
  <-> animateCondition active p prev prevP.
Proof.
  unfold shouldAnimatePreviousSegment, animateCondition.
  pose proof (Qeq_bool_iff prevP 1) as Hq1.
  pose proof (Qeq_bool_iff p 1) as Hq2.
  pose proof (Z.ltb_lt prev active) as H3.
  pose proof (Z.ltb_lt active prev) as H4.
  destruct (Qeq_bool prevP 1); destruct (Qeq_bool p 1);
    destruct (prev <? active); destruct (active <? prev); cbn;
    intuition (congruence || lia).
Qed.

Lemma elem_of_segmentTasks children a prev should l t :
  t ∈ segmentTasks children a prev should l
  <-> exists j, j ∈ l /\ j <> a
        /\ t = styleTask children j (if j <? a then 1%Q else 0%Q)
                 (if should then j =? prev else false).
Proof.
  induction l as [|k l IH]; cbn [segmentTasks].
  - split; [by intros ?%elem_of_nil|]. by intros (j & ?%elem_of_nil & _).
  - rewrite elem_of_app, IH. split.
    + intros [H|(j & Hj & Hne & ->)].
      * destruct (k =? a) eqn:E; [by apply elem_of_nil in H|].
        apply list_elem_of_singleton in H as ->. exists k.
        split; [left|split; [lia|done]].
      * exists j. split; [by right|done].
    + intros (j & Hj & Hne & ->). apply elem_of_cons in Hj as [->|Hj].
      * left. destruct (k =? a) eqn:E; [lia|]. by apply list_elem_of_singleton.
      * right. by exists j.
Qed.

Lemma elem_of_updateProgressTasks_style children i p ua st k el q w :
  TaskSetStyle k el q w ∈ updateProgressTasks children i p ua st
  <-> TaskSetStyle k el q w = styleTask children i p true
      \/ TaskSetStyle k el q w ∈ syncTasks children i p ua st.
Proof.
  unfold updateProgressTasks. rewrite elem_of_cons, !elem_of_app.
  unfold initialRenderTasks, overflowRenderTasks.
  destruct (activeSegmentIndex_ st =? 0); destruct (overflowMoves _ _);
    rewrite ?list_elem_of_singleton, ?elem_of_nil; unfold renderTask;
    split; intros H; try tauto; destruct H as [?|[?|[?|?]]]; try done; tauto.
Qed.

Lemma queryProgressValue_lookup children j child :
  0 <= j -> children !! Z.to_nat j = Some child ->
  queryProgressValue children (j + 1) = Some (progressValueOf child).
Proof.
  intros Hj Hchild. unfold queryProgressValue.
  replace (1 <=? j + 1) with true by (symmetry; apply Z.leb_le; lia).
  replace (j + 1 - 1) with j by lia. by rewrite Hchild.
Qed.

Lemma runTask_boundary_style st k el q w :
  q = 1%Q \/ q = 0%Q ->
  runTask st (TaskSetStyle k (Some el) q w) =
  ([SetProgressStyles el q (if w then TRANSITION_EASE else TRANSITION_NONE)], None).
Proof. intros [-> | ->]; by destruct w. Qed.

(** C7. When a progress update selects another segment than the active one
    (or all segments are to be updated), on a bar whose root has one child
    per segment, every segment [j] other than the new active one gets its
    fill written: a callback is queued for it that, when it runs, sets the
    fill of the value element of child [j] to 1 when [j] lies before the
    new active index and to 0 otherwise, and does not throw.  Among these
    writes, the one for [j] carries the transition flag, and then the
    eased transition instead of none, exactly when [j] is the previously
    active index and one of the three cases holds; so at most one of them
    does.  No other callback for a fill of a non-active segment is
    queued. *)
Theorem updateProgress_resynchronises_segments id p ua st a children :
  segmentIdMap_ st !! id = Some a ->
  root_ st = Some children ->
  Z.of_nat (length children) = segmentCount_ st ->
  activeSegmentIndex_ st <> a \/ ua = true ->
  let st' := stateOf (updateProgress id p ua st) in
  let new := queuedBy st st' in
  let prev := activeSegmentIndex_ st in
  let prevP := activeSegmentProgress_ st in
  (forall j, 0 <= j < segmentCount_ st -> j <> a ->
     exists w,
       TaskSetStyle (j + 1) (queryProgressValue children (j + 1))
         (if j <? a then 1%Q else 0%Q) w ∈ new)
  /\ (forall k el q w, TaskSetStyle k el q w ∈ new -> k <> a + 1 ->
        exists j, 0 <= j < segmentCount_ st /\ j <> a /\ k = j + 1
          /\ q = (if j <? a then 1%Q else 0%Q)
          /\ (w = true <-> j = prev /\ animateCondition a p prev prevP))
  /\ (forall k el q k' el' q',
        TaskSetStyle k el q true ∈ new -> TaskSetStyle k' el' q' true ∈ new ->
        k <> a + 1 -> k' <> a + 1 -> k = k')
  /\ (forall j, 0 <= j < segmentCount_ st -> j <> a ->
        exists child w,
          children !! Z.to_nat j = Some child
          /\ TaskSetStyle (j + 1) (Some (progressValueOf child))
               (if j <? a then 1%Q else 0%Q) w ∈ new
          /\ runTask st'
               (TaskSetStyle (j + 1) (Some (progressValueOf child))
                  (if j <? a then 1%Q else 0%Q) w)
             = ([SetProgressStyles (progressValueOf child)
                   (if j <? a then 1%Q else 0%Q)
                   (if w then TRANSITION_EASE else TRANSITION_NONE)], None)
          /\ (w = true <-> j = prev /\ animateCondition a p prev prevP))
  /\ (forall k el q w, TaskSetStyle k el q w ∈ new -> k <> a + 1 ->
        exists j child,
          0 <= j < segmentCount_ st /\ j <> a /\ k = j + 1
          /\ children !! Z.to_nat j = Some child
          /\ el = Some (progressValueOf child)
          /\ runTask st' (TaskSetStyle k el q w)
             = ([SetProgressStyles (progressValueOf child)
                   (if j <? a then 1%Q else 0%Q)
                   (if w then TRANSITION_EASE else TRANSITION_NONE)], None)).
Proof.
  intros Hid Hroot Hlen Hsync st' new prev prevP. subst new.
  assert (Hq : queuedBy st st' = updateProgressTasks children a p ua st)
    by (by apply queuedBy_updateProgress).
  rewrite Hq. clear Hq.
  assert (Hsync' : syncTasks children a p ua st =
            segmentTasks children a prev
              (shouldAnimatePreviousSegment a p prev prevP)
              (seqZ 0 (segmentCount_ st))).
  { unfold syncTasks. destruct Hsync as [Hne| ->].
    - apply Z.eqb_neq in Hne. by rewrite Hne.
    - by rewrite orb_true_r. }
  assert (Hflag : forall j,
            (if shouldAnimatePreviousSegment a p prev prevP
             then j =? prev else false) = true
            <-> j = prev /\ animateCondition a p prev prevP).
  { intros j. rewrite <- shouldAnimatePreviousSegment_iff.
    destruct (shouldAnimatePreviousSegment a p prev prevP).
    - rewrite Z.eqb_eq. tauto.
    - split; [done|]. by intros [_ ?]. }
  assert (Hfill : forall j, (if j <? a then 1%Q else 0%Q) = 1%Q
                            \/ (if j <? a then 1%Q else 0%Q) = 0%Q)
    by (intros j; destruct (j <? a); auto).
  assert (Hchar : forall k el q w,
            TaskSetStyle k el q w ∈ updateProgressTasks children a p ua st ->
            k <> a + 1 ->
            exists j, 0 <= j < segmentCount_ st /\ j <> a /\ k = j + 1
              /\ q = (if j <? a then 1%Q else 0%Q)
              /\ el = queryProgressValue children (j + 1)
              /\ (w = true <-> j = prev /\ animateCondition a p prev prevP)).
  { intros k el q w Hin Hk.
    apply elem_of_updateProgressTasks_style in Hin as [Heq|Hin].
    { unfold styleTask in Heq. by injection Heq as -> _ _ _. }
    rewrite Hsync' in Hin.
    apply elem_of_segmentTasks in Hin as (j & Hj & Hne & Heq).
    apply elem_of_seqZ in Hj. unfold styleTask in Heq.
    injection Heq as -> -> -> ->. exists j.
    split; [lia|]. split; [done|]. split; [done|]. split; [done|].
    split; [done|]. apply Hflag. }
  assert (Hqueued : forall j, 0 <= j < segmentCount_ st -> j <> a ->
            TaskSetStyle (j + 1) (queryProgressValue children (j + 1))
              (if j <? a then 1%Q else 0%Q)
              (if shouldAnimatePreviousSegment a p prev prevP
               then j =? prev else false)
            ∈ updateProgressTasks children a p ua st).
  { intros j Hj Hne.
    apply elem_of_updateProgressTasks_style. right. rewrite Hsync'.
    apply elem_of_segmentTasks. exists j.
    split; [apply elem_of_seqZ; lia|]. split; [done|]. reflexivity. }
  split; [|split; [|split; [|split]]].
  - intros j Hj Hne. eexists. by apply Hqueued.
  - intros k el q w Hin Hk.
    destruct (Hchar _ _ _ _ Hin Hk) as (j & ? & ? & ? & ? & _ & ?).
    exists j. done.
  - intros k el q k' el' q' H1 H2 Hk Hk'.
    destruct (Hchar _ _ _ _ H1 Hk) as (j & _ & _ & -> & _ & _ & Hw).
    destruct (Hchar _ _ _ _ H2 Hk') as (j' & _ & _ & -> & _ & _ & Hw').
    destruct Hw as [Hw _]. destruct Hw' as [Hw' _].
    destruct (Hw eq_refl) as [-> _]. destruct (Hw' eq_refl) as [-> _]. done.
  - intros j Hj Hne.
    destruct (lookup_lt_is_Some_2 children (Z.to_nat j) ltac:(lia)) as [child Hchild].
    exists child. eexists. split; [exact Hchild|].
    rewrite <- (queryProgressValue_lookup children j child) by (done || lia).
    split; [by apply Hqueued|].
    rewrite (queryProgressValue_lookup children j child) by (done || lia).
    split; [by apply runTask_boundary_style|]. apply Hflag.
  - intros k el q w Hin Hk.
    destruct (Hchar _ _ _ _ Hin Hk) as (j & Hj & Hne & -> & -> & -> & _).
    destruct (lookup_lt_is_Some_2 children (Z.to_nat j) ltac:(lia)) as [child Hchild].
    exists j, child. split; [done|]. split; [done|]. split; [done|].
    split; [done|].
    rewrite (queryProgressValue_lookup children j child) by (done || lia).
    split; [done|]. by apply runTask_boundary_style.
Qed.

Lemma updateProgress_resynchronises_segments_witness :
  let st' := stateOf (updateProgress "B" (1 # 2) false twoPages) in
  let new := queuedBy twoPages st' in
  (forall j, 0 <= j < segmentCount_ twoPages -> j <> 1 ->
     exists w,
       TaskSetStyle (j + 1)
         (queryProgressValue [SegmentBar 0; SegmentBar 1] (j + 1))
         (if j <? 1 then 1%Q else 0%Q) w ∈ new)
  /\ (forall k el q w, TaskSetStyle k el q w ∈ new -> k <> 1 + 1 ->
        exists j, 0 <= j < segmentCount_ twoPages /\ j <> 1 /\ k = j + 1
          /\ q = (if j <? 1 then 1%Q else 0%Q)
          /\ (w = true <->
              j = activeSegmentIndex_ twoPages
              /\ animateCondition 1 (1 # 2) (activeSegmentIndex_ twoPages)
                   (activeSegmentProgress_ twoPages)))
  /\ (forall k el q k' el' q',
        TaskSetStyle k el q true ∈ new -> TaskSetStyle k' el' q' true ∈ new ->
        k <> 1 + 1 -> k' <> 1 + 1 -> k = k')
  /\ (forall j, 0 <= j < segmentCount_ twoPages -> j <> 1 ->
        exists child w,
          [SegmentBar 0; SegmentBar 1] !! Z.to_nat j = Some child
          /\ TaskSetStyle (j + 1) (Some (progressValueOf child))
               (if j <? 1 then 1%Q else 0%Q) w ∈ new
          /\ runTask st'
               (TaskSetStyle (j + 1) (Some (progressValueOf child))
                  (if j <? 1 then 1%Q else 0%Q) w)
             = ([SetProgressStyles (progressValueOf child)
                   (if j <? 1 then 1%Q else 0%Q)
                   (if w then TRANSITION_EASE else TRANSITION_NONE)], None)
          /\ (w = true <->
              j = activeSegmentIndex_ twoPages
              /\ animateCondition 1 (1 # 2) (activeSegmentIndex_ twoPages)
                   (activeSegmentProgress_ twoPages)))
  /\ (forall k el q w, TaskSetStyle k el q w ∈ new -> k <> 1 + 1 ->
        exists j child,
          0 <= j < segmentCount_ twoPages /\ j <> 1 /\ k = j + 1
          /\ [SegmentBar 0; SegmentBar 1] !! Z.to_nat j = Some child
          /\ el = Some (progressValueOf child)
          /\ runTask st' (TaskSetStyle k el q w)
             = ([SetProgressStyles (progressValueOf child)
                   (if j <? 1 then 1%Q else 0%Q)
                   (if w then TRANSITION_EASE else TRANSITION_NONE)], None)).
Proof.
  apply (updateProgress_resynchronises_segments
           "B" (1 # 2) false twoPages 1 [SegmentBar 0; SegmentBar 1]).
  - vm_compute; reflexivity.
  - vm_compute; reflexivity.
  - vm_compute; reflexivity.
  - left. vm_compute. lia.
Defined.

(** ** The sliding window *)

Lemma overflowFirst_spec a f n : overflowFirst a f n = checkOverflowSpec a f n.
Proof.
  unfold overflowFirst, checkOverflowSpec, MAX_SEGMENTS, SEGMENT_INCREMENT.
  repeat case_match; lia.
Qed.

(** C3. [checkIndexForOverflow_] always returns.  With the active index at
    or past the end of the window, the window start advances by
    [SEGMENT_INCREMENT] if [first + MAX_SEGMENTS + SEGMENT_INCREMENT - 1] is
    below the segment count, and otherwise by
    [segmentCount - (first + MAX_SEGMENTS)], which makes the window end at
    the segment count.  With the active index before the window, the start
    goes back by [SEGMENT_INCREMENT], but not below 0.  In both cases one
    animated render is queued.  Otherwise the state is left as it is: the
    window does not move and nothing is queued.  Every progress update that
    passes its assertions ends with this check, made for the new active
    index. *)
Theorem checkIndexForOverflow_moves_window st :
  let a := activeSegmentIndex_ st in
  let f := firstExpandedSegmentIndex_ st in
  let n := segmentCount_ st in
  let st' := stateOf (checkIndexForOverflow_ st) in
  threw (checkIndexForOverflow_ st) = None
  /\ firstExpandedSegmentIndex_ st' = checkOverflowSpec a f n
  /\ (f + MAX_SEGMENTS <= a ->
      f + MAX_SEGMENTS + SEGMENT_INCREMENT - 1 < n ->
      firstExpandedSegmentIndex_ st' = f + SEGMENT_INCREMENT)
  /\ (f + MAX_SEGMENTS <= a ->
      ~ f + MAX_SEGMENTS + SEGMENT_INCREMENT - 1 < n ->
      firstExpandedSegmentIndex_ st' = f + (n - (f + MAX_SEGMENTS))
      /\ firstExpandedSegmentIndex_ st' + MAX_SEGMENTS = n)
  /\ (a < f ->
      firstExpandedSegmentIndex_ st' = Z.max 0 (f - SEGMENT_INCREMENT))
  /\ (f + MAX_SEGMENTS <= a \/ a < f ->
      queuedBy st st' = [renderTask true st'])
  /\ (f <= a < f + MAX_SEGMENTS -> st' = st)
  /\ (forall id p ua i children,
        segmentIdMap_ st !! id = Some i -> root_ st = Some children ->
        exists s, activeSegmentIndex_ s = i
               /\ segmentCount_ s = n
               /\ updateProgress id p ua st = checkIndexForOverflow_ s).
Proof.
  intros a f n st'.
  assert (Hf : firstExpandedSegmentIndex_ st' = checkOverflowSpec a f n).
  { subst st'. rewrite checkIndexForOverflow_eq, <- overflowFirst_spec.
    cbn [stateOf]. destruct (overflowMoves _ _) eqn:E; [done|].
    by rewrite overflowFirst_stays. }
  unfold checkOverflowSpec, MAX_SEGMENTS, SEGMENT_INCREMENT in *.
  split; [by rewrite checkIndexForOverflow_eq|].
  split; [done|].
  split. { intros H1 H2. rewrite Hf. repeat case_match; lia. }
  split. { intros H1 H2. rewrite Hf. repeat case_match; lia. }
  split. { intros H1. rewrite Hf. repeat case_match; lia. }
  split.
  { intros H. subst st'. rewrite checkIndexForOverflow_eq.
    replace (overflowMoves _ _) with true.
    2:{ symmetry. unfold overflowMoves, MAX_SEGMENTS. fold a f.
        apply orb_true_iff. rewrite Z.leb_le, Z.ltb_lt. lia. }
    cbn [stateOf]. by rewrite queuedBy_enqueue. }
  split.
  { intros H. subst st'. rewrite checkIndexForOverflow_eq.
    replace (overflowMoves _ _) with false; [done|].
    symmetry. unfold overflowMoves, MAX_SEGMENTS. fold a f.
    apply orb_false_iff. rewrite Z.leb_gt, Z.ltb_ge. lia. }
  intros id p ua i children Hid Hroot.
  rewrite updateProgress_eq, Hid, Hroot. eexists. split; [|split; [|done]].
  - reflexivity.
  - unfold afterSync, afterInitial. cbn.
    repeat case_match; reflexivity.
Qed.

Lemma initialFirst_spec i f n : initialFirst i f n = initialWindowSpec i n f.
Proof.
  unfold initialFirst, initialWindowSpec, MAX_SEGMENTS.
  destruct (20 <? i) eqn:E; [|done]. apply Z.ltb_lt in E.
  rewrite Z.rem_mod_nonneg by lia. done.
Qed.

(** C4. [getInitialFirstExpandedSegmentIndex_] sets the window start to
    [i - i mod MAX_SEGMENTS] if [i > MAX_SEGMENTS] and
    [i + MAX_SEGMENTS < segmentCount], to [segmentCount - MAX_SEGMENTS] if
    only [i > MAX_SEGMENTS], and leaves it otherwise.  On an update of a bar
    whose active index and window start are still 0, for a registered
    segment [i] other than [MAX_SEGMENTS], this is the window start the
    whole update ends with.  With 50 segments, a first update for segment
    25 with progress 1/2 ends with window start 20 and 3 ellipses on either
    side. *)
Theorem initial_window_choice :
  (forall st i,
     firstExpandedSegmentIndex_
       (stateOf (getInitialFirstExpandedSegmentIndex_ i st)) =
     initialWindowSpec i (segmentCount_ st) (firstExpandedSegmentIndex_ st))
  /\ (forall st id p ua i children,
        segmentIdMap_ st !! id = Some i -> root_ st = Some children ->
        activeSegmentIndex_ st = 0 -> firstExpandedSegmentIndex_ st = 0 ->
        0 <= i < segmentCount_ st -> i <> MAX_SEGMENTS ->
        firstExpandedSegmentIndex_ (stateOf (updateProgress id p ua st)) =
        initialWindowSpec i (segmentCount_ st) 0)
  /\ (let st := stateOf (updateProgress (pageId 25) (1 # 2) false fiftyPages) in
      segmentCount_ fiftyPages = 50
      /\ segmentIdMap_ fiftyPages !! pageId 25 = Some 25
      /\ activeSegmentIndex_ st = 25
      /\ firstExpandedSegmentIndex_ st = 20
      /\ getPrevEllipsisCount_ st = 3
      /\ getNextEllipsisCount_ st = 3).
Proof.
  split; [|split].
  - intros st i. rewrite getInitialFirstExpandedSegmentIndex_eq.
    cbn. apply initialFirst_spec.
  - intros st id p ua i children Hid Hroot Hact Hfirst Hi Hne.
    rewrite (updateProgress_ok _ _ _ _ _ _ Hid Hroot). cbn.
    unfold firstAfterUpdate, firstAfterInitial.
    rewrite Hact, Hfirst. cbn [Z.eqb].
    rewrite initialFirst_spec, overflowFirst_spec.
    unfold checkOverflowSpec, initialWindowSpec, MAX_SEGMENTS, SEGMENT_INCREMENT in *.
    pose proof (Z.mod_pos_bound i 20 ltac:(lia)).
    repeat case_match; try lia.
  - vm_compute. repeat split; reflexivity.
Qed.

(** ** When the initial window is computed *)

Lemma staticRendersOf_app ts1 ts2 :
  staticRendersOf (ts1 ++ ts2) = staticRendersOf ts1 ++ staticRendersOf ts2.
Proof.
  induction ts1 as [|[? ? []| |] ts1 IH]; cbn; by rewrite ?IH.
Qed.

Lemma staticRendersOf_segmentTasks children a prev should l :
  staticRendersOf (segmentTasks children a prev should l) = [].
Proof.
  induction l as [|j l IH]; [done|]. cbn [segmentTasks].
  rewrite staticRendersOf_app, IH. by destruct (j =? a).
Qed.

Lemma staticRendersOf_updateProgressTasks children i p ua st :
  staticRendersOf (updateProgressTasks children i p ua st) =
  initialRenderTasks i st.
Proof.
  unfold updateProgressTasks. cbn [staticRendersOf styleTask].
  rewrite !staticRendersOf_app.
  replace (staticRendersOf (syncTasks children i p ua st)) with (@nil Task).
  2:{ unfold syncTasks. destruct (_ || _); [|done].
      by rewrite staticRendersOf_segmentTasks. }
  replace (staticRendersOf (overflowRenderTasks i st)) with (@nil Task).
  2:{ unfold overflowRenderTasks. by destruct (overflowMoves _ _). }
  rewrite !app_nil_r. unfold initialRenderTasks.
  by destruct (activeSegmentIndex_ st =? 0).
Qed.

(** C1, as amended.  A call of [updateProgress] that passes its assertions
    computes the initial window and queues the render without animation
    exactly when the stored active segment index is 0 before the call: on
    the first call on a new bar, and on every later call made while segment
    0 is the active one.  Then the render is queued once, for the window
    start that [getInitialFirstExpandedSegmentIndex_] chose, and the call
    ends with the window that [checkIndexForOverflow_] makes of that start.
    With another stored index no initial window is computed: no render
    without animation is queued, and the call ends with the window that
    [checkIndexForOverflow_] makes of the start it found. *)
Theorem initial_relayout_iff_active_index_zero id p ua st i children :
  segmentIdMap_ st !! id = Some i ->
  root_ st = Some children ->
  (forcesInitialRelayout st id p ua = true <-> activeSegmentIndex_ st = 0)
  /\ staticRendersOf (queuedBy st (stateOf (updateProgress id p ua st))) =
     (if activeSegmentIndex_ st =? 0
      then [renderTask false
              (set_firstExpanded
                 (initialWindowSpec i (segmentCount_ st)
                    (firstExpandedSegmentIndex_ st)) st)]
      else [])
  /\ activeSegmentIndex_ newProgressBar = 0
  /\ (activeSegmentIndex_ st = 0 ->
      firstExpandedSegmentIndex_ (stateOf (updateProgress id p ua st)) =
      checkOverflowSpec i
        (initialWindowSpec i (segmentCount_ st) (firstExpandedSegmentIndex_ st))
        (segmentCount_ st))
  /\ (activeSegmentIndex_ st <> 0 ->
      firstExpandedSegmentIndex_ (stateOf (updateProgress id p ua st)) =
      checkOverflowSpec i (firstExpandedSegmentIndex_ st) (segmentCount_ st)).
Proof.
  intros Hid Hroot.
  assert (H : staticRendersOf (queuedBy st (stateOf (updateProgress id p ua st))) =
     (if activeSegmentIndex_ st =? 0
      then [renderTask false
              (set_firstExpanded
                 (initialWindowSpec i (segmentCount_ st)
                    (firstExpandedSegmentIndex_ st)) st)]
      else [])).
  { rewrite (queuedBy_updateProgress _ _ _ _ _ _ Hid Hroot).
    rewrite staticRendersOf_updateProgressTasks.
    unfold initialRenderTasks, firstAfterInitial.
    destruct (activeSegmentIndex_ st =? 0); [|done].
    by rewrite initialFirst_spec. }
  assert (Hfirst : firstExpandedSegmentIndex_ (stateOf (updateProgress id p ua st)) =
            checkOverflowSpec i
              (if activeSegmentIndex_ st =? 0
               then initialWindowSpec i (segmentCount_ st)
                      (firstExpandedSegmentIndex_ st)
               else firstExpandedSegmentIndex_ st)
              (segmentCount_ st)).
  { rewrite (updateProgress_ok _ _ _ _ _ _ Hid Hroot). cbn [stateOf]. fields.
    unfold firstAfterUpdate, firstAfterInitial.
    by rewrite overflowFirst_spec, initialFirst_spec. }
  split; [|split; [exact H|split; [reflexivity|split]]].
  - unfold forcesInitialRelayout. rewrite H.
    destruct (activeSegmentIndex_ st =? 0) eqn:E.
    + apply Z.eqb_eq in E. done.
    + apply Z.eqb_neq in E. done.
  - intros Hact. rewrite Hfirst, Hact. reflexivity.
  - intros Hact. apply Z.eqb_neq in Hact. by rewrite Hfirst, Hact.
Qed.

Lemma initial_relayout_iff_active_index_zero_witness :
  let st := playingStory in
  let children := SegmentBar <$> seq 30 50 in
  (forcesInitialRelayout st (pageId 49) 1 false = true
   <-> activeSegmentIndex_ st = 0)
  /\ staticRendersOf
       (queuedBy st (stateOf (updateProgress (pageId 49) 1 false st))) =
     (if activeSegmentIndex_ st =? 0
      then [renderTask false
              (set_firstExpanded
                 (initialWindowSpec 49 (segmentCount_ st)
                    (firstExpandedSegmentIndex_ st)) st)]
      else [])
  /\ activeSegmentIndex_ newProgressBar = 0
  /\ (activeSegmentIndex_ st = 0 ->
      firstExpandedSegmentIndex_ (stateOf (updateProgress (pageId 49) 1 false st)) =
      checkOverflowSpec 49
        (initialWindowSpec 49 (segmentCount_ st) (firstExpandedSegmentIndex_ st))
        (segmentCount_ st))
  /\ (activeSegmentIndex_ st <> 0 ->
      firstExpandedSegmentIndex_ (stateOf (updateProgress (pageId 49) 1 false st)) =
      checkOverflowSpec 49 (firstExpandedSegmentIndex_ st) (segmentCount_ st)).
Proof.
  apply (initial_relayout_iff_active_index_zero
           (pageId 49) 1 false playingStory 49 (SegmentBar <$> seq 30 50));
    vm_compute; reflexivity.
Defined.

(** C1, as stated, fails in both directions.  After a first update for
    segment 0 the next update is not the first one since a reset, and it
    computes the initial window and renders without animation again.  After
    an update for segment 1, a reset and the registration of the same ids,
    the next update is the first one since the reset, and it does neither. *)
Lemma initial_relayout_not_tied_to_first_call :
  (let history := [AddSegment "A"; AddSegment "B"; UpdateProgress "A" 1 false] in
   let st := performAll history builtBar in
   firstUpdateSinceReset history = false
   /\ threw (updateProgress "B" 1 false st) = None
   /\ forcesInitialRelayout st "B" 1 false = true)
  /\ (let history := [AddSegment "A"; AddSegment "B"; UpdateProgress "B" 1 false;
                      Reset; AddSegment "A"; AddSegment "B"] in
      let st := performAll history builtBar in
      firstUpdateSinceReset history = true
      /\ threw (updateProgress "B" 1 false st) = None
      /\ forcesInitialRelayout st "B" 1 false = false).
Proof. vm_compute. repeat split; reflexivity. Qed.

(** ** Direction *)

Lemma renderLoop_direction st segmentWidth indices translateX :
  renderLoop (set_storeRtl true st) segmentWidth indices translateX =
  (map mirror (renderLoop (set_storeRtl false st) segmentWidth indices translateX).1,
   (renderLoop (set_storeRtl false st) segmentWidth indices translateX).2).
Proof.
  revert translateX. induction indices as [|index rest IH]; intros translateX.
  - reflexivity.
  - cbn [renderLoop].
    change (segments_ (set_storeRtl true st)) with (segments_ st).
    change (segments_ (set_storeRtl false st)) with (segments_ st).
    change (widthAt (set_storeRtl true st)) with (widthAt st).
    change (widthAt (set_storeRtl false st)) with (widthAt st).
    destruct (segments_ st !! Z.to_nat index) as [segment|]; [|reflexivity].
    rewrite IH.
    destruct (renderLoop (set_storeRtl false st) segmentWidth rest _) as [ws e].
    reflexivity.
Qed.

(** C9. Take any state and switch only the direction held by the store.
    The width of a segment and the start offset that [render_] computes and
    hands to its callback are the same in both directions.  When the
    callback runs, it stops at the same point in both directions, and the
    writes made right-to-left are the writes made left-to-right with each
    offset [x] replaced by [x * -1], which is [- x], and each scale, hence
    each width, kept. *)
Theorem direction_negates_offsets st :
  let ltr := set_storeRtl false st in
  let rtl := set_storeRtl true st in
  getSegmentWidth_ rtl = getSegmentWidth_ ltr
  /\ initialTranslateX rtl = initialTranslateX ltr
  /\ (forall shouldAnimate,
        queuedBy rtl (stateOf (render_ shouldAnimate rtl)) =
        queuedBy ltr (stateOf (render_ shouldAnimate ltr)))
  /\ (forall segmentWidth translateX shouldAnimate,
        let t := TaskRender segmentWidth translateX shouldAnimate in
        runTask rtl t = (map mirror (runTask ltr t).1, (runTask ltr t).2))
  /\ (forall segment x scaleX,
        mirror (SetSegmentTransform segment x scaleX) =
        SetSegmentTransform segment (x * -1)%Q scaleX
        /\ (x * -1 == - x)%Q).
Proof.
  intros ltr rtl. split; [reflexivity|]. split; [reflexivity|].
  split; [|split].
  - intros b. rewrite !render_eq. cbn [stateOf].
    rewrite !queuedBy_enqueue by reflexivity. reflexivity.
  - intros segmentWidth translateX shouldAnimate t. subst t ltr rtl.
    cbn [runTask].
    change (segmentCount_ (set_storeRtl true st)) with (segmentCount_ st).
    change (segmentCount_ (set_storeRtl false st)) with (segmentCount_ st).
    rewrite renderLoop_direction.
    destruct (renderLoop (set_storeRtl false st) segmentWidth _ translateX)
      as [ws [e|]]; cbn [fst snd]; [reflexivity|].
    by rewrite map_app.
  - intros segment x scaleX. split; [reflexivity|]. ring.
Qed.

(** ** The registry *)

Lemma addSegment_ok id st children :
  root_ st = Some children ->
  addSegment_ id st = Ok tt (addedSegment id children st).
Proof.
  intros Hroot. unfold addSegment_, buildSegmentEl_. msimpl.
  fields. rewrite Hroot. msimpl. reflexivity.
Qed.

Lemma addSegmentIfNew_ok id st children :
  root_ st = Some children ->
  addSegmentIfNew id st =
  Ok tt (if hasOwn (segmentIdMap_ st) id then st else addedSegment id children st).
Proof.
  intros Hroot. unfold addSegmentIfNew. msimpl.
  destruct (hasOwn _ _); cbn [negb when]; [reflexivity|].
  by apply addSegment_ok.
Qed.

Lemma forEach_addSegmentIfNew_ok ids st :
  is_Some (root_ st) ->
  forEach ids addSegmentIfNew st = Ok tt (addAll ids st)
  /\ is_Some (root_ (addAll ids st)).
Proof.
  unfold addAll. revert st. induction ids as [|id ids IH]; intros st [children Hroot].
  - cbn. eauto.
  - cbn [forEach]. mstep. rewrite (addSegmentIfNew_ok _ _ _ Hroot).
    apply IH. destruct (hasOwn _ _); [eauto|]. cbn. eauto.
Qed.

Lemma addAll_cons id ids st children :
  root_ st = Some children ->
  addAll (id :: ids) st =
  addAll ids (if hasOwn (segmentIdMap_ st) id then st
              else addedSegment id children st).
Proof.
  intros Hroot. unfold addAll. cbn [forEach]. mstep.
  by rewrite (addSegmentIfNew_ok _ _ _ Hroot).
Qed.

Lemma hasOwn_false m id : hasOwn m id = false <-> m !! id = None.
Proof.
  unfold hasOwn. rewrite bool_decide_eq_false, <- eq_None_not_Some. done.
Qed.

Lemma hasOwn_true m id : hasOwn m id = true <-> is_Some (m !! id).
Proof. unfold hasOwn. by rewrite bool_decide_eq_true. Qed.

Lemma registryOk_addedSegment id children st :
  segmentIdMap_ st !! id = None ->
  registryOk st -> registryOk (addedSegment id children st).
Proof.
  intros Hnew [Hc Hr Hi Hs]. split; cbn.
  - lia.
  - intros id' i. rewrite lookup_insert. case_decide.
    + intros [= <-]. lia.
    + intros H'%Hr. lia.
  - intros id1 id2 i. rewrite !lookup_insert.
    repeat case_decide; subst; try done.
    + intros [= <-] H'%Hr. lia.
    + intros H'%Hr [= <-]. lia.
    + apply Hi.
  - intros i Hi'. destruct (decide (i = segmentCount_ st)) as [->|Hne].
    + exists id. by rewrite lookup_insert_eq.
    + destruct (Hs i ltac:(lia)) as [id' Hid']. exists id'.
      rewrite lookup_insert_ne; [done|]. intros ->. congruence.
Qed.

Lemma registryOk_cleared st :
  registryOk (set_segmentCount 0 (set_segmentIdMap ∅ (set_root (Some []) st))).
Proof.
  split; cbn; try done; try lia.
Qed.

Lemma registryOk_addAll ids st :
  is_Some (root_ st) -> registryOk st -> registryOk (addAll ids st).
Proof.
  revert st. induction ids as [|id ids IH]; intros st [children Hroot] Hreg.
  - exact Hreg.
  - rewrite (addAll_cons _ _ _ _ Hroot).
    destruct (hasOwn _ _) eqn:E.
    + apply IH; eauto.
    + apply IH; [cbn; eauto|].
      apply registryOk_addedSegment; [|done]. by apply hasOwn_false.
Qed.

Lemma sameBar_refl st : sameBar st st.
Proof. by split. Qed.

Lemma sameBar_trans st1 st2 st3 : sameBar st1 st2 -> sameBar st2 st3 -> sameBar st1 st3.
Proof. intros [] []. split; congruence. Qed.

Lemma addAll_frame ids st children :
  root_ st = Some children ->
  sameBar st (addAll ids st)
  /\ segmentCount_ st <= segmentCount_ (addAll ids st)
  /\ exists new,
       root_ (addAll ids st) = Some (children ++ new)
       /\ segments_ (addAll ids st) = segments_ st ++ new
       /\ Z.of_nat (length new) = segmentCount_ (addAll ids st) - segmentCount_ st.
Proof.
  revert st children. induction ids as [|id ids IH]; intros st children Hroot.
  - split; [apply sameBar_refl|]. split; [done|]. exists [].
    rewrite !app_nil_r. cbn. split; [done|]. split; [done|]. unfold addAll. cbn. lia.
  - rewrite (addAll_cons _ _ _ _ Hroot). destruct (hasOwn _ _).
    + by apply IH.
    + destruct (IH (addedSegment id children st) _ eq_refl)
        as (Hsame & Hle & new & Hr & Hs & Hlen).
      split; [|split].
      * eapply sameBar_trans; [|exact Hsame]. by split.
      * cbn in Hle. lia.
      * exists (SegmentBar (createdElements st) :: new).
        rewrite Hr, Hs. cbn [segments_ addedSegment].
        rewrite <- !app_assoc. cbn [app]. split; [done|]. split; [done|].
        cbn [length]. cbn in Hlen. lia.
Qed.

Lemma updateProgress_frame id p ua st :
  let st' := stateOf (updateProgress id p ua st) in
  segmentCount_ st' = segmentCount_ st
  /\ segmentIdMap_ st' = segmentIdMap_ st
  /\ root_ st' = root_ st
  /\ segments_ st' = segments_ st
  /\ isBuilt_ st' = isBuilt_ st.
Proof.
  intros st'. subst st'.
  destruct (segmentIdMap_ st !! id) as [i|] eqn:Hid;
    [destruct (root_ st) as [children|] eqn:Hroot|].
  - rewrite (updateProgress_ok _ _ _ _ _ _ Hid Hroot). cbn. by rewrite Hroot.
  - by rewrite updateProgress_eq, Hid, Hroot.
  - by rewrite updateProgress_eq, Hid.
Qed.

Lemma builtBar_fields :
  segmentCount_ builtBar = 0 /\ segmentIdMap_ builtBar = ∅
  /\ root_ builtBar = Some [] /\ segments_ builtBar = [].
Proof. vm_compute. repeat split; reflexivity. Qed.

(** The registry invariant of the id map, for every sequence of operations
    on a built bar; the children of the root are the segments registered
    since the last [clear_]. *)
Lemma registryOk_performAll ops :
  let st := performAll ops builtBar in
  registryOk st
  /\ exists children, root_ st = Some children
       /\ Z.of_nat (length children) = segmentCount_ st
       /\ exists stale, segments_ st = stale ++ children.
Proof.
  unfold performAll. rewrite <- (rev_involutive ops).
  induction (rev ops) as [|op ops' IH]; clear ops.
  - cbn [rev fold_left]. destruct builtBar_fields as (Hn & Hm & Hr & Hs).
    split.
    + split; rewrite ?Hn, ?Hm; try done; try lia.
    + exists []. rewrite Hn, Hr, Hs. repeat split. by exists [].
  - cbn [rev]. rewrite fold_left_app. cbn [fold_left].
    destruct IH as (Hreg & children & Hroot & Hlen & stale & Hsegs).
    set (st := fold_left _ (rev ops') builtBar) in *.
    destruct op as [|id|id p ua]; cbn [perform].
    + rewrite clear_eq, Hroot. cbn [stateOf].
      split; [apply registryOk_cleared|]. exists []. cbn.
      repeat split. exists (segments_ st). by rewrite app_nil_r.
    + rewrite (addSegmentIfNew_ok _ _ _ Hroot). cbn [stateOf].
      destruct (hasOwn _ _) eqn:E.
      * split; [done|]. exists children. repeat split; try done. by exists stale.
      * split; [apply registryOk_addedSegment; [by apply hasOwn_false|done]|].
        eexists. cbn. split; [done|]. split.
        { rewrite length_app. cbn. lia. }
        exists stale. by rewrite Hsegs, app_assoc.
    + destruct (updateProgress_frame id p ua st) as (Hn & Hm & Hr & Hs & _).
      split.
      * destruct Hreg as [Hc Hrg Hi Hsj].
        split; rewrite ?Hn, ?Hm; done.
      * exists children. rewrite Hr, Hn, Hs. repeat split; try done. by exists stale.
Qed.

(** C2, on the input on which the code departs from it.  Register "A",
    clear, register "B": the id map and the count are as the claim says,
    and the root has the one child made for "B"; but [segments_], the
    array [render_] indexes with the segment index, was not cleared, and at
    the index of "B" it still holds the element made for "A", which is no
    longer displayed.  A render then moves that element and never the one
    displayed. *)
Theorem clear_keeps_stale_segments :
  let st := performAll [AddSegment "A"; Reset; AddSegment "B"] builtBar in
  segmentCount_ st = 1
  /\ segmentIdMap_ st !! "B" = Some 0
  /\ segmentIdMap_ st !! "A" = None
  /\ root_ st = Some [SegmentBar 1]
  /\ segments_ st = [SegmentBar 0; SegmentBar 1]
  /\ segments_ st !! 0%nat <> Some (SegmentBar 1)
  /\ (runTask st (renderTask false st)).1 =
     [SetSegmentTransform (SegmentBar 0) 0 (358 # 2); ToggleAnimateClass false].
Proof. vm_compute. repeat split; try reflexivity. discriminate. Qed.

(** ** The callbacks, step by step *)

Lemma onPageIds_eq ids st :
  is_Some (root_ st) ->
  onPageIds ids st =
  if isBuilt_ st
  then updateProgress (activeSegmentId_ st) (activeSegmentProgress_ st) true
         (addAll ids (cleared st))
  else Ok tt (addAll ids st).
Proof.
  intros Hroot. unfold onPageIds. msimpl.
  destruct (isBuilt_ st) eqn:Hb; cbn [when].
  - rewrite clear_eq. destruct Hroot as [children ->]. cbv beta iota.
    fold (cleared st). mstep.
    destruct (forEach_addSegmentIfNew_ok ids (cleared st)) as [-> _]; [by eexists|].
    cbv beta iota. msimpl.
    destruct (addAll_frame ids (cleared st) [] eq_refl) as ([Hb' _ Hp Hid _ _ _] & _).
    rewrite Hb'. cbn [isBuilt_ cleared set_segmentCount set_segmentIdMap set_root].
    rewrite Hb. cbn [when]. msimpl. rewrite Hp, Hid. reflexivity.
  - msimpl.
    destruct (forEach_addSegmentIfNew_ok ids st Hroot) as [-> _].
    cbv beta iota. msimpl.
    destruct Hroot as [children Hroot].
    destruct (addAll_frame ids st children Hroot) as ([Hb' _ _ _ _ _ _] & _).
    rewrite Hb', Hb. reflexivity.
Qed.

Lemma getRoot_eq st :
  getRoot st =
  match root_ st with
  | Some children => Ok children st
  | None => Throw NotAnElement st
  end.
Proof. unfold getRoot. msimpl. by destruct (root_ st). Qed.

Lemma stateOf_getRoot st : stateOf (getRoot st) = st.
Proof. rewrite getRoot_eq. by destruct (root_ st). Qed.

Lemma build_eq ids w st :
  build ids w st = getRoot (if isBuilt_ st then st else builtFrom ids w st).
Proof.
  unfold build. msimpl. destruct (isBuilt_ st) eqn:Hb; [reflexivity|].
  msimpl. rewrite onPageIds_eq by (by eexists).
  cbn [isBuilt_ set_root]. rewrite Hb. cbv beta iota. msimpl.
  unfold onRtlStateUpdate_. msimpl.
  destruct (forEach_addSegmentIfNew_ok ids (set_root (Some []) st)) as [_ [cs Hcs]];
    [by eexists|].
  rewrite (getRoot_eq (addAll ids (set_root (Some []) st))), Hcs. msimpl.
  reflexivity.
Qed.

Lemma handle_build_state ids w st :
  stateOf ((build ids w ≫= λ _ : list Node, mret tt) st) =
  if isBuilt_ st then st else builtFrom ids w st.
Proof.
  rewrite mbind_eq, build_eq, getRoot_eq.
  by destruct (root_ (if isBuilt_ st then st else builtFrom ids w st)).
Qed.

(** ** The window invariant *)

Lemma firstAfterUpdate_windowOk i st :
  0 <= i < segmentCount_ st -> windowOk st ->
  0 <= firstAfterUpdate i st
  /\ (firstAfterUpdate i st = 0
      \/ firstAfterUpdate i st + MAX_SEGMENTS <= segmentCount_ st).
Proof.
  unfold windowOk, firstAfterUpdate, firstAfterInitial.
  rewrite overflowFirst_spec, initialFirst_spec.
  unfold checkOverflowSpec, initialWindowSpec, MAX_SEGMENTS, SEGMENT_INCREMENT.
  intros Hi [H0 H1].
  pose proof (Z.mod_pos_bound i 20 ltac:(lia)).
  repeat case_match; lia.
Qed.

Lemma updateProgress_windowOk id p ua st :
  registryOk st -> windowOk st -> windowOk (stateOf (updateProgress id p ua st)).
Proof.
  intros Hreg Hwin.
  destruct (segmentIdMap_ st !! id) as [i|] eqn:Hid;
    [destruct (root_ st) as [children|] eqn:Hroot|].
  - rewrite (updateProgress_ok _ _ _ _ _ _ Hid Hroot). unfold windowOk. cbn.
    apply firstAfterUpdate_windowOk; [|done]. by eapply reg_range.
  - by rewrite updateProgress_eq, Hid, Hroot.
  - by rewrite updateProgress_eq, Hid.
Qed.

Lemma updateProgress_registryOk id p ua st :
  registryOk st -> registryOk (stateOf (updateProgress id p ua st)).
Proof.
  intros [Hc Hr Hi Hs].
  destruct (updateProgress_frame id p ua st) as (Hn & Hm & _).
  split; rewrite ?Hn, ?Hm; done.
Qed.

Lemma barOk_new : barOk newProgressBar.
Proof.
  split.
  - split; cbn; try done; try lia.
  - unfold windowOk. cbn. lia.
  - done.
Qed.

Lemma windowOk_grow st st' :
  firstExpandedSegmentIndex_ st' = firstExpandedSegmentIndex_ st ->
  segmentCount_ st <= segmentCount_ st' ->
  windowOk st -> windowOk st'.
Proof. unfold windowOk. intros -> Hle. lia. Qed.

Lemma barOk_frame st st' :
  segmentCount_ st' = segmentCount_ st ->
  segmentIdMap_ st' = segmentIdMap_ st ->
  firstExpandedSegmentIndex_ st' = firstExpandedSegmentIndex_ st ->
  root_ st' = root_ st ->
  isBuilt_ st' = isBuilt_ st ->
  barOk st -> barOk st'.
Proof.
  intros Hn Hm Hf Hr Hb [[Hc Hrg Hi Hs] Hwin Hroot]. split.
  - split; rewrite ?Hn, ?Hm; done.
  - unfold windowOk in *. rewrite Hf, Hn. done.
  - rewrite Hb, Hr. done.
Qed.

Lemma step_barOk st ev :
  barOk st -> segmentCount_ st <= segmentCount_ (step st ev) -> barOk (step st ev).
Proof.
  intros Hok. pose proof Hok as [Hreg Hwin Hroot]. unfold step.
  destruct ev as [ids w|ids|b|w| |id p ua|]; cbn [handle].
  - rewrite handle_build_state. destruct (isBuilt_ st) eqn:Hb; [by intros _|].
    unfold builtFrom. cbv zeta. intros Hle.
    set (st0 := set_root (Some []) st).
    destruct (addAll_frame ids st0 [] eq_refl) as ([_ _ _ _ Hf _ _] & Hcnt & new & Hr & _).
    split.
    + assert (Hreg' : registryOk (addAll ids st0)).
      { apply registryOk_addAll; [by eexists|]. destruct Hreg. by split. }
      destruct Hreg'. by split.
    + apply (windowOk_grow st); [exact Hf|exact Hle|done].
    + intros _. cbn. rewrite Hr. by eexists.
  - msimpl. destruct (isBuilt_ st) eqn:Hb; cbn [when]; [|by intros _].
    rewrite onPageIds_eq by auto. rewrite Hb.
    set (st1 := addAll ids (cleared st)).
    destruct (updateProgress_frame (activeSegmentId_ st) (activeSegmentProgress_ st)
                true st1) as (Hn & Hm & Hr & _ & Hb').
    rewrite Hn. intros Hle.
    destruct (addAll_frame ids (cleared st) [] eq_refl)
      as ([Hb1 _ _ _ Hf _ _] & _ & new & Hr1 & _).
    assert (Hreg1 : registryOk st1).
    { apply registryOk_addAll; [by eexists|]. apply registryOk_cleared. }
    split.
    + by apply updateProgress_registryOk.
    + apply updateProgress_windowOk; [done|].
      apply (windowOk_grow st); [exact Hf|exact Hle|done].
    + intros _. rewrite Hr. fold st1 in Hr1. rewrite Hr1. by eexists.
  - intros _. msimpl. destruct (isBuilt_ (set_storeRtl b st)) eqn:Hb; cbn [when].
    + unfold onRtlStateUpdate_, getRoot. msimpl.
      destruct (Hroot Hb) as [cs Hcs]. cbn [root_ set_storeRtl]. rewrite Hcs.
      msimpl. cbn [stateOf]. by apply (barOk_frame st).
    + cbn [stateOf]. by apply (barOk_frame st).
  - intros _. msimpl. destruct (isBuilt_ st) eqn:Hb; cbn [when]; [|done].
    unfold onResize_. msimpl. rewrite render_eq. cbn [stateOf].
    by apply (barOk_frame st).
  - intros _. msimpl. destruct (isBuilt_ st) eqn:Hb; cbn [when]; [|done].
    unfold replay_. msimpl. rewrite render_eq. cbn [stateOf].
    destruct Hreg. split; [by split| |intros _; by apply Hroot].
    unfold windowOk. cbn. lia.
  - intros _. split.
    + by apply updateProgress_registryOk.
    + by apply updateProgress_windowOk.
    + destruct (updateProgress_frame id p ua st) as (_ & _ & -> & _ & ->). done.
  - intros _. msimpl. cbn [stateOf]. by apply (barOk_frame st).
Qed.

Lemma run_barOk evs st :
  barOk st -> neverShrinks evs st = true -> barOk (run evs st).
Proof.
  revert st. induction evs as [|ev evs IH]; intros st Hok Hns; [done|].
  cbn [neverShrinks] in Hns. apply andb_true_iff in Hns as [Hle Hns].
  apply Z.leb_le in Hle. cbn [run fold_left]. apply IH; [|done].
  by apply step_barOk.
Qed.

(** C5, as amended.  In every state reached from a new bar by callbacks of
    which none leaves fewer segments than it found, the window start lies
    between 0 and [max 0 (segmentCount - MAX_SEGMENTS)] when there are more
    than [MAX_SEGMENTS] segments; with at most [MAX_SEGMENTS] segments it
    is 0 and there is no ellipsis on either side. *)
Theorem window_bounds_while_segments_never_shrink evs :
  neverShrinks evs newProgressBar = true ->
  let st := run evs newProgressBar in
  (MAX_SEGMENTS < segmentCount_ st ->
   0 <= firstExpandedSegmentIndex_ st <= Z.max 0 (segmentCount_ st - MAX_SEGMENTS))
  /\ (segmentCount_ st <= MAX_SEGMENTS ->
      firstExpandedSegmentIndex_ st = 0
      /\ getPrevEllipsisCount_ st = 0
      /\ getNextEllipsisCount_ st = 0).
Proof.
  intros Hns st.
  destruct (run_barOk evs newProgressBar barOk_new Hns) as [[Hc _ _ _] [H0 H1] _].
  fold st in Hc, H0, H1.
  unfold getPrevEllipsisCount_, getNextEllipsisCount_, MAX_SEGMENTS in *.
  split; [lia|]. intros Hle.
  assert (Hf : firstExpandedSegmentIndex_ st = 0) by lia.
  rewrite Hf. split; [done|]. split; [done|].
  case_match; lia.
Qed.

Lemma window_bounds_while_segments_never_shrink_witness :
  let st := run growingStory newProgressBar in
  (MAX_SEGMENTS < segmentCount_ st ->
   0 <= firstExpandedSegmentIndex_ st <= Z.max 0 (segmentCount_ st - MAX_SEGMENTS))
  /\ (segmentCount_ st <= MAX_SEGMENTS ->
      firstExpandedSegmentIndex_ st = 0
      /\ getPrevEllipsisCount_ st = 0
      /\ getNextEllipsisCount_ st = 0).
Proof.
  apply (window_bounds_while_segments_never_shrink growingStory).
  vm_compute. reflexivity.
Defined.

Lemma shrunkToOne_fields :
  segmentCount_ shrunkToOne = 1
  /\ firstExpandedSegmentIndex_ shrunkToOne = 25
  /\ getPrevEllipsisCount_ shrunkToOne = 3.
Proof. vm_compute. repeat split; reflexivity. Qed.

Lemma shrunkTo46_fields :
  segmentCount_ shrunkTo46 = 46 /\ firstExpandedSegmentIndex_ shrunkTo46 = 30.
Proof. vm_compute. split; reflexivity. Qed.

(** C5, as stated, fails when the store delivers a shorter list of page
    ids: [clear_] resets the count but not the window start.  With 50
    pages and the window at 30, a list of one page leaves the window start
    at 25 with 3 ellipses before it; a list of 46 pages leaves it at 30,
    above 46 - 20.  Both states are reached by callbacks from a new bar. *)
Lemma window_bounds_fail_when_segments_shrink :
  (reachable shrunkToOne
   /\ segmentCount_ shrunkToOne = 1
   /\ firstExpandedSegmentIndex_ shrunkToOne = 25
   /\ getPrevEllipsisCount_ shrunkToOne = 3
   /\ ~ (segmentCount_ shrunkToOne <= MAX_SEGMENTS ->
         firstExpandedSegmentIndex_ shrunkToOne = 0
         /\ getPrevEllipsisCount_ shrunkToOne = 0
         /\ getNextEllipsisCount_ shrunkToOne = 0))
  /\ (reachable shrunkTo46
      /\ segmentCount_ shrunkTo46 = 46
      /\ firstExpandedSegmentIndex_ shrunkTo46 = 30
      /\ ~ (MAX_SEGMENTS < segmentCount_ shrunkTo46 ->
            0 <= firstExpandedSegmentIndex_ shrunkTo46
              <= Z.max 0 (segmentCount_ shrunkTo46 - MAX_SEGMENTS))).
Proof.
  destruct shrunkToOne_fields as (Hn & Hf & Hp).
  destruct shrunkTo46_fields as (Hn' & Hf').
  split.
  - split; [by eexists|]. rewrite Hn, Hf, Hp. unfold MAX_SEGMENTS.
    split; [reflexivity|]. split; [reflexivity|]. split; [reflexivity|].
    intros H. destruct H as [? _]; lia.
  - split; [by eexists|]. rewrite Hn', Hf'. unfold MAX_SEGMENTS.
    split; [reflexivity|]. split; [reflexivity|].
    intros H. lia.
Qed.

(** ** Walking through a story from its first page to its last *)

Lemma addAll_preserves_lookup ids st id i :
  is_Some (root_ st) ->
  segmentIdMap_ st !! id = Some i ->
  segmentIdMap_ (addAll ids st) !! id = Some i.
Proof.
  revert st. induction ids as [|id' ids IH]; intros st [children Hroot] Hid; [done|].
  rewrite (addAll_cons _ _ _ _ Hroot). destruct (hasOwn _ _) eqn:E.
  - apply IH; eauto.
  - apply IH; [cbn; eauto|]. cbn. apply hasOwn_false in E.
    rewrite lookup_insert_ne; [done|]. intros ->. congruence.
Qed.

Lemma addAll_lookup_fresh ids st :
  is_Some (root_ st) ->
  NoDup ids ->
  (forall id, id ∈ ids -> segmentIdMap_ st !! id = None) ->
  (forall k id, ids !! k = Some id ->
     segmentIdMap_ (addAll ids st) !! id = Some (segmentCount_ st + Z.of_nat k))
  /\ segmentCount_ (addAll ids st) = segmentCount_ st + Z.of_nat (length ids).
Proof.
  revert st. induction ids as [|id ids IH]; intros st [children Hroot] Hnd Hfresh.
  - split; [intros k id Hk; by rewrite lookup_nil in Hk|]. unfold addAll. cbn. lia.
  - apply NoDup_cons in Hnd as [Hnotin Hnd].
    rewrite (addAll_cons _ _ _ _ Hroot).
    assert (E : hasOwn (segmentIdMap_ st) id = false).
    { apply hasOwn_false, Hfresh. left. }
    rewrite E.
    destruct (IH (addedSegment id children st)) as [Hlook Hcount].
    { cbn. eauto. }
    { done. }
    { intros id' Hin. cbn. rewrite lookup_insert_ne.
      - apply Hfresh. by right.
      - intros ->. done. }
    split.
    + intros [|k] id' Hk; cbn in Hk.
      * injection Hk as <-.
        rewrite (addAll_preserves_lookup _ _ id (segmentCount_ st)).
        -- f_equal. lia.
        -- cbn. eauto.
        -- cbn. by rewrite lookup_insert_eq.
      * rewrite (Hlook k id' Hk). cbn. f_equal. lia.
    + rewrite Hcount. cbn [segmentCount_ addedSegment length]. lia.
Qed.

Lemma freshBar_fields ids w :
  NoDup ids ->
  let st := freshBar ids w in
  segmentCount_ st = Z.of_nat (length ids)
  /\ (forall k id, ids !! k = Some id -> segmentIdMap_ st !! id = Some (Z.of_nat k))
  /\ is_Some (root_ st)
  /\ activeSegmentIndex_ st = 0
  /\ firstExpandedSegmentIndex_ st = 0.
Proof.
  intros Hnd st. subst st. unfold freshBar, run. cbn [fold_left].
  unfold step. cbn [handle]. rewrite handle_build_state.
  cbn [isBuilt_ newProgressBar]. unfold builtFrom. cbv zeta.
  set (st0 := set_root (Some []) newProgressBar).
  destruct (addAll_lookup_fresh ids st0) as [Hlook Hcount];
    [by eexists|done|by intros; apply lookup_empty|].
  destruct (addAll_frame ids st0 [] eq_refl) as ([_ Ha _ _ Hf _ _] & _ & new & Hr & _).
  cbn. split; [by rewrite Hcount|]. split.
  { intros k id Hk. rewrite (Hlook k id Hk). by cbn. }
  split; [by rewrite Hr|]. split; [by rewrite Ha|by rewrite Hf].
Qed.

Lemma walking_step n m k st id p ua :
  walking n m k st -> 0 <= k < n -> m !! id = Some k ->
  let st' := stateOf (updateProgress id p ua st) in
  walking n m (k + 1) st'
  /\ threw (updateProgress id p ua st) = None
  /\ activeSegmentIndex_ st' = k
  /\ firstExpandedSegmentIndex_ st <= firstExpandedSegmentIndex_ st'
  /\ firstExpandedSegmentIndex_ st' <= k < firstExpandedSegmentIndex_ st' + MAX_SEGMENTS.
Proof.
  intros (Hn & Hm & [children Hroot] & Ha & Hf & Hk) Hkn Hid st'. subst st'.
  rewrite <- Hm in Hid.
  rewrite (updateProgress_ok _ _ _ _ _ _ Hid Hroot).
  unfold walking. cbn [stateOf threw]. fields. rewrite Hroot, Hn.
  assert (Hnew : firstAfterUpdate k st =
                 checkOverflowSpec k (firstExpandedSegmentIndex_ st) n).
  { unfold firstAfterUpdate, firstAfterInitial.
    rewrite overflowFirst_spec, initialFirst_spec, Hn, Ha. f_equal.
    unfold initialWindowSpec, MAX_SEGMENTS in *.
    repeat case_match; lia. }
  rewrite Hnew. clear Hnew.
  unfold checkOverflowSpec, MAX_SEGMENTS, SEGMENT_INCREMENT in *.
  repeat split; try done; try (by eexists); repeat case_match; lia.
Qed.

Lemma run_snoc evs ev st : run (evs ++ [ev]) st = step (run evs st) ev.
Proof. unfold run. by rewrite fold_left_app. Qed.

Lemma walk_lookup ids args (k : nat) id p ua :
  ids !! k = Some id -> args !! k = Some (p, ua) ->
  walk ids args !! k = Some (EvUpdateProgress id p ua).
Proof.
  intros Hid Harg. unfold walk. rewrite lookup_zip_with, Hid. cbn.
  by rewrite Harg.
Qed.

Lemma walking_prefix ids w args (k : nat) :
  NoDup ids -> MAX_SEGMENTS < Z.of_nat (length ids) ->
  length args = length ids -> (k <= length ids)%nat ->
  walking (Z.of_nat (length ids)) (segmentIdMap_ (freshBar ids w)) (Z.of_nat k)
    (run (take k (walk ids args)) (freshBar ids w)).
Proof.
  intros Hnd Hlong Hlen.
  destruct (freshBar_fields ids w Hnd) as (Hn & Hlook & Hroot & Ha & Hf).
  induction k as [|k IH]; intros Hk.
  - rewrite take_0. cbn [run fold_left]. unfold walking.
    rewrite Hn, Ha, Hf. unfold MAX_SEGMENTS in *. repeat split; try done; lia.
  - destruct (lookup_lt_is_Some_2 ids k ltac:(lia)) as [id Hid].
    destruct (lookup_lt_is_Some_2 args k ltac:(lia)) as [[p ua] Harg].
    rewrite (take_S_r _ _ _ (walk_lookup _ _ _ _ _ _ Hid Harg)), run_snoc.
    unfold step. cbn [handle].
    destruct (walking_step _ _ _ _ id p ua (IH ltac:(lia))) as [Hw _].
    + lia.
    + by apply Hlook.
    + replace (Z.of_nat (S k)) with (Z.of_nat k + 1) by lia. exact Hw.
Qed.

(** C6. Build a bar for more than [MAX_SEGMENTS] distinct pages and update
    the progress of the pages in order, whatever the progress values and
    flags.  Every update passes; the window start never decreases; after
    the update for page [k] the active index is [k] and lies in the
    window, hence between the first ellipsis before and the last ellipsis
    after it; and after the last update the window ends at the last
    page. *)
Theorem forward_walk_moves_window_forward ids w args :
  NoDup ids ->
  MAX_SEGMENTS < Z.of_nat (length ids) ->
  length args = length ids ->
  let fresh := freshBar ids w in
  let updates := walk ids args in
  (forall (k : nat) id p ua,
     ids !! k = Some id -> args !! k = Some (p, ua) ->
     let st := run (take k updates) fresh in
     let st' := run (take (S k) updates) fresh in
     st' = stateOf (updateProgress id p ua st)
     /\ threw (updateProgress id p ua st) = None
     /\ activeSegmentIndex_ st' = Z.of_nat k
     /\ firstExpandedSegmentIndex_ st <= firstExpandedSegmentIndex_ st'
     /\ firstExpandedSegmentIndex_ st' <= Z.of_nat k
          < firstExpandedSegmentIndex_ st' + MAX_SEGMENTS
     /\ firstExpandedSegmentIndex_ st' - getPrevEllipsisCount_ st' <= Z.of_nat k
          < firstExpandedSegmentIndex_ st' + MAX_SEGMENTS + getNextEllipsisCount_ st')
  /\ firstExpandedSegmentIndex_ (run updates fresh) + MAX_SEGMENTS
     = Z.of_nat (length ids).
Proof.
  intros Hnd Hlong Hlen fresh updates. subst fresh updates.
  destruct (freshBar_fields ids w Hnd) as (Hn & Hlook & _).
  split.
  - intros k id p ua Hid Harg st st'.
    pose proof (lookup_lt_Some _ _ _ Hid) as Hk.
    pose proof (walking_prefix ids w args k Hnd Hlong Hlen ltac:(lia)) as Hpre.
    fold st in Hpre.
    assert (Hst' : st' = stateOf (updateProgress id p ua st)).
    { subst st' st.
      by rewrite (take_S_r _ _ _ (walk_lookup _ _ _ _ _ _ Hid Harg)), run_snoc. }
    destruct (walking_step _ _ _ _ id p ua Hpre) as (Hw & Hok & Ha & Hmono & Hin).
    { lia. }
    { by apply Hlook. }
    rewrite <- Hst' in Hw, Ha, Hmono, Hin.
    split; [done|]. split; [done|]. split; [done|]. split; [done|].
    split; [done|].
    destruct Hw as (Hn' & _ & _ & _ & Hf & _).
    unfold getPrevEllipsisCount_, getNextEllipsisCount_. rewrite Hn'.
    unfold MAX_SEGMENTS in *. case_match; lia.
  - pose proof (walking_prefix ids w args (length ids) Hnd Hlong Hlen ltac:(lia))
      as (_ & _ & _ & _ & Hf & Hk).
    rewrite take_ge in Hf, Hk.
    2,3: unfold walk; rewrite length_zip_with; lia.
    unfold MAX_SEGMENTS in *. lia.
Qed.

Lemma forward_walk_moves_window_forward_witness :
  let ids := pageIds 23 in
  let args := replicate 23 ((1 # 2)%Q, false) in
  let fresh := freshBar ids 364 in
  let updates := walk ids args in
  (forall (k : nat) id p ua,
     ids !! k = Some id -> args !! k = Some (p, ua) ->
     let st := run (take k updates) fresh in
     let st' := run (take (S k) updates) fresh in
     st' = stateOf (updateProgress id p ua st)
     /\ threw (updateProgress id p ua st) = None
     /\ activeSegmentIndex_ st' = Z.of_nat k
     /\ firstExpandedSegmentIndex_ st <= firstExpandedSegmentIndex_ st'
     /\ firstExpandedSegmentIndex_ st' <= Z.of_nat k
          < firstExpandedSegmentIndex_ st' + MAX_SEGMENTS
     /\ firstExpandedSegmentIndex_ st' - getPrevEllipsisCount_ st' <= Z.of_nat k
          < firstExpandedSegmentIndex_ st' + MAX_SEGMENTS + getNextEllipsisCount_ st')
  /\ firstExpandedSegmentIndex_ (run updates fresh) + MAX_SEGMENTS
     = Z.of_nat (length ids).
Proof.
  apply (forward_walk_moves_window_forward (pageIds 23) 364
           (replicate 23 ((1 # 2)%Q, false))).
  - apply (bool_decide_unpack _). vm_compute. reflexivity.
  - vm_compute. reflexivity.
  - vm_compute. reflexivity.
Defined.


(** ** Further properties of the callbacks *)

Lemma domOk_new : domOk newProgressBar.
Proof.
  split; cbn; try done.
  split; cbn; try done; lia.
Qed.

Lemma domOk_frame st st' :
  segmentCount_ st' = segmentCount_ st ->
  segmentIdMap_ st' = segmentIdMap_ st ->
  root_ st' = root_ st ->
  segments_ st' = segments_ st ->
  isBuilt_ st' = isBuilt_ st ->
  domOk st -> domOk st'.
Proof.
  intros Hn Hm Hr Hs Hb [[Hc Hrg Hi Hsj] Hbuilt Hunbuilt Hch Hseg]. split.
  - split; rewrite ?Hn, ?Hm; done.
  - by rewrite Hb, Hr.
  - by rewrite Hb, Hr, Hn.
  - by rewrite Hr, Hn.
  - by rewrite Hn, Hs.
Qed.

Lemma domOk_addAll ids st0 :
  root_ st0 = Some [] -> segmentCount_ st0 = 0 -> segmentIdMap_ st0 = ∅ ->
  let st1 := addAll ids st0 in
  registryOk st1
  /\ (exists children, root_ st1 = Some children
        /\ Z.of_nat (length children) = segmentCount_ st1)
  /\ segmentCount_ st1 <= Z.of_nat (length (segments_ st1))
  /\ isBuilt_ st1 = isBuilt_ st0.
Proof.
  intros Hroot Hn Hm st1. subst st1.
  destruct (addAll_frame ids st0 [] Hroot) as ([Hb _ _ _ _ _ _] & _ & new & Hr & Hs & Hlen).
  split; [|split; [|split]].
  - apply registryOk_addAll; [by eexists|].
    split; rewrite ?Hn, ?Hm; try done; lia.
  - exists new. split; [done|]. lia.
  - rewrite Hs, length_app. lia.
  - done.
Qed.

Lemma step_domOk st ev : domOk st -> domOk (step st ev).
Proof.
  intros Hok. pose proof Hok as [Hreg Hbuilt Hunbuilt Hch Hseg]. unfold step.
  destruct ev as [ids w|ids|b|w| |id p ua|]; cbn [handle].
  - rewrite handle_build_state. destruct (isBuilt_ st) eqn:Hb; [done|].
    unfold builtFrom. cbv zeta. destruct (Hunbuilt eq_refl) as [Hnone Hzero].
    destruct (domOk_addAll ids (set_root (Some []) st)) as (Hr1 & (cs & Hcs & Hlen) & Hs1 & _).
    { done. }
    { done. }
    { cbn. apply map_eq. intros id. rewrite lookup_empty.
      destruct (segmentIdMap_ st !! id) as [i|] eqn:E; [|done].
      destruct Hreg as [_ Hrg _ _]. specialize (Hrg _ _ E). lia. }
    split; cbn.
    + destruct Hr1. by split.
    + intros _. rewrite Hcs. eauto.
    + done.
    + intros children. rewrite Hcs. by intros [= <-].
    + done.
  - msimpl. destruct (isBuilt_ st) eqn:Hb; cbn [when]; [|done].
    rewrite onPageIds_eq by auto. rewrite Hb.
    destruct (domOk_addAll ids (cleared st)) as (Hr1 & (cs & Hcs & Hlen) & Hs1 & Hb1);
      [done..|].
    set (st1 := addAll ids (cleared st)) in *.
    apply (domOk_frame st1);
      try (by destruct (updateProgress_frame (activeSegmentId_ st)
                          (activeSegmentProgress_ st) true st1)
               as (? & ? & ? & ? & ?)).
    split.
    + done.
    + intros _. rewrite Hcs. eauto.
    + rewrite Hb1. cbn [cleared isBuilt_ set_segmentCount set_segmentIdMap set_root].
      rewrite Hb. done.
    + intros children. rewrite Hcs. by intros [= <-].
    + done.
  - msimpl. destruct (isBuilt_ (set_storeRtl b st)) eqn:Hb; cbn [when].
    + unfold onRtlStateUpdate_, getRoot. msimpl.
      destruct (Hbuilt Hb) as [cs Hcs]. cbn [root_ set_storeRtl]. rewrite Hcs.
      msimpl. cbn [stateOf]. by apply (domOk_frame st).
    + cbn [stateOf]. by apply (domOk_frame st).
  - msimpl. destruct (isBuilt_ st) eqn:Hb; cbn [when]; [|done].
    unfold onResize_. msimpl. rewrite render_eq. cbn [stateOf].
    by apply (domOk_frame st).
  - msimpl. destruct (isBuilt_ st) eqn:Hb; cbn [when]; [|done].
    unfold replay_. msimpl. rewrite render_eq. cbn [stateOf].
    by apply (domOk_frame st).
  - destruct (updateProgress_frame id p ua st) as (? & ? & ? & ? & ?).
    by apply (domOk_frame st).
  - msimpl. cbn [stateOf]. by apply (domOk_frame st).
Qed.

Lemma reachable_domOk st : reachable st -> domOk st.
Proof.
  intros [evs ->]. unfold run. rewrite <- (rev_involutive evs).
  induction (rev evs) as [|ev evs' IH]; [apply domOk_new|].
  cbn [rev]. rewrite fold_left_app. cbn [fold_left]. by apply step_domOk.
Qed.

(** X1. In every state the callbacks can lead to, whatever page lists the
    store delivered, the id map is a bijection between the registered ids
    and the indices below the segment count, and the index of a registered
    id names a child of the root. *)
Theorem reachable_registry_bijective st :
  reachable st ->
  (forall id i, segmentIdMap_ st !! id = Some i ->
     0 <= i < segmentCount_ st
     /\ exists children child,
          root_ st = Some children /\ children !! Z.to_nat i = Some child)
  /\ (forall id id' i,
        segmentIdMap_ st !! id = Some i -> segmentIdMap_ st !! id' = Some i ->
        id = id')
  /\ (forall i, 0 <= i < segmentCount_ st ->
        exists id, segmentIdMap_ st !! id = Some i).
Proof.
  intros [[Hc Hrg Hi Hsj] Hbuilt Hunbuilt Hch Hseg]%reachable_domOk.
  split; [|split; [exact Hi|exact Hsj]].
  intros id i Hid. pose proof (Hrg _ _ Hid) as Hrange. split; [done|].
  destruct (isBuilt_ st) eqn:Hb.
  - destruct (Hbuilt eq_refl) as [children Hroot].
    pose proof (Hch _ Hroot) as Hlen.
    destruct (lookup_lt_is_Some_2 children (Z.to_nat i) ltac:(lia)) as [child Hchild].
    eauto.
  - destruct (Hunbuilt eq_refl) as [_ Hzero]. lia.
Qed.

Lemma reachable_registry_bijective_witness :
  (forall id i, segmentIdMap_ playingStory !! id = Some i ->
     0 <= i < segmentCount_ playingStory
     /\ exists children child,
          root_ playingStory = Some children
          /\ children !! Z.to_nat i = Some child)
  /\ (forall id id' i,
        segmentIdMap_ playingStory !! id = Some i ->
        segmentIdMap_ playingStory !! id' = Some i -> id = id')
  /\ (forall i, 0 <= i < segmentCount_ playingStory ->
        exists id, segmentIdMap_ playingStory !! id = Some i).
Proof.
  apply (reachable_registry_bijective playingStory).
  exists (take 4 growingStory). reflexivity.
Defined.

Lemma renderLoop_total st segmentWidth indices translateX :
  (forall i, i ∈ indices -> 0 <= i < Z.of_nat (length (segments_ st))) ->
  (renderLoop st segmentWidth indices translateX).2 = None
  /\ length (renderLoop st segmentWidth indices translateX).1 = length indices.
Proof.
  revert translateX. induction indices as [|i rest IH]; intros translateX Hin.
  - done.
  - cbn [renderLoop].
    destruct (lookup_lt_is_Some_2 (segments_ st) (Z.to_nat i)) as [seg ->].
    { specialize (Hin i ltac:(left)). lia. }
    destruct (IH (translateX + (widthAt st segmentWidth i
                                + inject_Z SEGMENTS_MARGIN_PX))%Q) as [He Hl].
    { intros j Hj. apply Hin. by right. }
    destruct (renderLoop st segmentWidth rest _) as [ws e]. cbn in *.
    split; [done|]. by rewrite Hl.
Qed.

Lemma runTask_render_total st segmentWidth translateX shouldAnimate :
  domOk st ->
  (runTask st (TaskRender segmentWidth translateX shouldAnimate)).2 = None
  /\ length (runTask st (TaskRender segmentWidth translateX shouldAnimate)).1
     = S (Z.to_nat (segmentCount_ st)).
Proof.
  intros [[Hc _ _ _] _ _ _ Hseg]. cbn [runTask].
  destruct (renderLoop_total st segmentWidth (seqZ 0 (segmentCount_ st)) translateX)
    as [He Hl].
  { intros i Hi%elem_of_seqZ. lia. }
  destruct (renderLoop st segmentWidth _ translateX) as [ws e]. cbn in *.
  subst e. cbn. rewrite length_app, Hl, length_seqZ. cbn. split; [done|lia].
Qed.

(** X2. In every state the callbacks can lead to, the callback of
    [render_] never meets an [undefined] segment: run on that state, it
    does not throw and writes one transform per segment and then the
    animation class, whatever width and offset it captured. *)
Theorem reachable_render_never_throws st segmentWidth translateX shouldAnimate :
  reachable st ->
  (runTask st (TaskRender segmentWidth translateX shouldAnimate)).2 = None
  /\ length (runTask st (TaskRender segmentWidth translateX shouldAnimate)).1
     = S (Z.to_nat (segmentCount_ st)).
Proof. intros H%reachable_domOk. by apply runTask_render_total. Qed.

Lemma reachable_render_never_throws_witness :
  (runTask playingStory (TaskRender 10 0 true)).2 = None
  /\ length (runTask playingStory (TaskRender 10 0 true)).1
     = S (Z.to_nat (segmentCount_ playingStory)).
Proof.
  apply (reachable_render_never_throws playingStory 10 0 true).
  exists (take 4 growingStory). reflexivity.
Defined.

Lemma queuedBy_same st : queuedBy st st = [].
Proof. unfold queuedBy. by rewrite drop_all. Qed.

Lemma queryProgressValue_found children i :
  0 <= i < Z.of_nat (length children) ->
  is_Some (queryProgressValue children (i + 1)).
Proof.
  intros Hi. unfold queryProgressValue.
  replace (1 <=? i + 1) with true by (symmetry; apply Z.leb_le; lia).
  destruct (lookup_lt_is_Some_2 children (Z.to_nat (i + 1 - 1)) ltac:(lia)) as [c ->].
  by eexists.
Qed.

Lemma elem_of_updateProgressTasks children i p ua st t :
  t ∈ updateProgressTasks children i p ua st ->
  t = styleTask children i p true
  \/ (exists w x b, t = TaskRender w x b)
  \/ t ∈ syncTasks children i p ua st.
Proof.
  unfold updateProgressTasks. rewrite elem_of_cons, !elem_of_app.
  unfold initialRenderTasks, overflowRenderTasks, renderTask.
  intros [H|[H|[H|H]]]; [by left| |by right; right|].
  - destruct (activeSegmentIndex_ st =? 0); [|by apply elem_of_nil in H].
    apply list_elem_of_singleton in H. right; left. eauto.
  - destruct (overflowMoves _ _); [|by apply elem_of_nil in H].
    apply list_elem_of_singleton in H. right; left. eauto.
Qed.

(** X3. In every state the callbacks can lead to, each callback that a
    progress update queues runs without throwing on the state the update
    leaves: the selector of [updateProgressByIndex_] always finds its
    element, and the renders find their segments. *)
Theorem reachable_update_callbacks_succeed st id p ua t :
  reachable st ->
  t ∈ queuedBy st (stateOf (updateProgress id p ua st)) ->
  (runTask (stateOf (updateProgress id p ua st)) t).2 = None.
Proof.
  intros Hreach Hin.
  assert (Hok' : domOk (stateOf (updateProgress id p ua st))).
  { apply (step_domOk st (EvUpdateProgress id p ua)). by apply reachable_domOk. }
  apply reachable_domOk in Hreach as [[Hc Hrg _ _] _ _ Hch _].
  destruct (segmentIdMap_ st !! id) as [i|] eqn:Hid;
    [destruct (root_ st) as [children|] eqn:Hroot|].
  - rewrite (queuedBy_updateProgress _ _ _ _ _ _ Hid Hroot) in Hin.
    pose proof (Hch _ eq_refl) as Hlen. pose proof (Hrg _ _ Hid) as Hi.
    apply elem_of_updateProgressTasks in Hin as [->|[(w & x & b & ->)|Hin]].
    + unfold styleTask. cbn [runTask].
      destruct (queryProgressValue_found children i ltac:(lia)) as [el ->]. done.
    + by apply runTask_render_total.
    + unfold syncTasks in Hin.
      destruct (_ || _); [|by apply elem_of_nil in Hin].
      apply elem_of_segmentTasks in Hin as (j & Hj%elem_of_seqZ & _ & ->).
      unfold styleTask. cbn [runTask].
      destruct (queryProgressValue_found children j ltac:(lia)) as [el ->]. done.
  - rewrite updateProgress_eq, Hid, Hroot in Hin. cbn [stateOf] in Hin.
    rewrite queuedBy_same in Hin. by apply elem_of_nil in Hin.
  - rewrite updateProgress_eq, Hid in Hin. cbn [stateOf] in Hin.
    rewrite queuedBy_same in Hin. by apply elem_of_nil in Hin.
Qed.

Lemma reachable_update_callbacks_succeed_witness :
  (runTask (stateOf (updateProgress (pageId 10) (1 # 2) false playingStory))
     (TaskSetStyle 11 (Some (ProgressValue 40)) (1 # 2) true)).2 = None.
Proof.
  apply (reachable_update_callbacks_succeed playingStory (pageId 10) (1 # 2) false).
  - exists (take 4 growingStory). reflexivity.
  - vm_compute. left.
Defined.

(** X4. On a bar that has a root whenever it is built, as every bar the
    callbacks lead to has, [build] returns the root and leaves the bar
    built; a second [build], whatever the store holds by then, returns
    the same root without changing anything: no segment is registered or
    created twice. *)
Theorem build_idempotent ids w ids' w' st :
  (isBuilt_ st = true -> is_Some (root_ st)) ->
  let st1 := stateOf (build ids w st) in
  exists children,
    build ids w st = Ok children st1
    /\ root_ st1 = Some children
    /\ isBuilt_ st1 = true
    /\ build ids' w' st1 = Ok children st1.
Proof.
  intros Hroot st1. subst st1. rewrite build_eq.
  destruct (isBuilt_ st) eqn:Hb.
  - destruct (Hroot eq_refl) as [children Hch].
    rewrite getRoot_eq, Hch. cbn [stateOf]. exists children.
    split; [done|]. split; [done|]. split; [done|].
    by rewrite build_eq, Hb, getRoot_eq, Hch.
  - destruct (forEach_addSegmentIfNew_ok ids (set_root (Some []) st))
      as [_ [children Hch]]; [by eexists|].
    assert (Hch' : root_ (builtFrom ids w st) = Some children) by exact Hch.
    rewrite getRoot_eq, Hch'. cbn [stateOf]. exists children.
    split; [done|]. split; [done|]. split; [done|].
    rewrite build_eq. cbn [isBuilt_ builtFrom set_isBuilt].
    by rewrite getRoot_eq, Hch'.
Qed.

Lemma build_idempotent_witness :
  let st1 := stateOf (build ["A"; "B"] 364 newProgressBar) in
  exists children,
    build ["A"; "B"] 364 newProgressBar = Ok children st1
    /\ root_ st1 = Some children
    /\ isBuilt_ st1 = true
    /\ build ["B"; "C"] 400 st1 = Ok children st1.
Proof.
  apply (build_idempotent ["A"; "B"] 364 ["B"; "C"] 400 newProgressBar).
  vm_compute. discriminate.
Defined.

(** X5. On either side at most 3 ellipses are shown, in every state.  In
    the states reached by callbacks that never leave fewer segments than
    they found, neither count is negative, and with more than
    [MAX_SEGMENTS] segments the ellipses shown stand for segments that
    exist outside the window: together they are at most
    [segmentCount - MAX_SEGMENTS]. *)
Theorem ellipsis_counts_bounded evs :
  neverShrinks evs newProgressBar = true ->
  let st := run evs newProgressBar in
  0 <= getPrevEllipsisCount_ st <= 3
  /\ 0 <= getNextEllipsisCount_ st <= 3
  /\ (MAX_SEGMENTS < segmentCount_ st ->
      getPrevEllipsisCount_ st + getNextEllipsisCount_ st
      <= segmentCount_ st - MAX_SEGMENTS).
Proof.
  intros Hns st.
  destruct (run_barOk evs newProgressBar barOk_new Hns) as [_ [H0 H1] _].
  fold st in H0, H1.
  unfold getPrevEllipsisCount_, getNextEllipsisCount_, MAX_SEGMENTS in *.
  repeat case_match; lia.
Qed.

Lemma ellipsis_counts_bounded_witness :
  let st := run growingStory newProgressBar in
  0 <= getPrevEllipsisCount_ st <= 3
  /\ 0 <= getNextEllipsisCount_ st <= 3
  /\ (MAX_SEGMENTS < segmentCount_ st ->
      getPrevEllipsisCount_ st + getNextEllipsisCount_ st
      <= segmentCount_ st - MAX_SEGMENTS).
Proof.
  apply (ellipsis_counts_bounded growingStory). vm_compute. reflexivity.
Defined.




Lemma widthAt_before st segmentWidth index :
  index < firstExpandedSegmentIndex_ st ->
  widthAt st segmentWidth index = inject_Z ELLIPSE_WIDTH_PX.
Proof.
  intros H. unfold widthAt.
  replace (firstExpandedSegmentIndex_ st <=? index) with false; [done|].
  symmetry. apply Z.leb_gt. lia.
Qed.

Lemma renderLoop_leading st segmentWidth (k : nat) :
  forall a m translateX,
    storeRtl st = false ->
    0 <= a -> Z.of_nat k < m ->
    a + m <= Z.of_nat (length (segments_ st)) ->
    a + Z.of_nat k <= firstExpandedSegmentIndex_ st ->
    exists segment x,
      (renderLoop st segmentWidth (seqZ a m) translateX).1 !! k =
        Some (SetSegmentTransform segment x
                (widthAt st segmentWidth (a + Z.of_nat k)
                 / inject_Z ELLIPSE_WIDTH_PX)%Q)
      /\ segments_ st !! Z.to_nat (a + Z.of_nat k) = Some segment
      /\ (x == translateX
               + inject_Z ((ELLIPSE_WIDTH_PX + SEGMENTS_MARGIN_PX) * Z.of_nat k))%Q.
Proof.
  induction k as [|k IH]; intros a m translateX Hrtl Ha Hk Hm Hf.
  - rewrite seqZ_cons by lia. cbn [renderLoop].
    destruct (lookup_lt_is_Some_2 (segments_ st) (Z.to_nat a) ltac:(lia)) as [seg Hseg].
    rewrite Hseg.
    destruct (renderLoop st segmentWidth _ _) as [ws e]. cbn [fst lookup].
    exists seg, translateX. unfold transform_. rewrite Hrtl.
    replace (a + Z.of_nat 0) with a by lia.
    split; [done|]. split; [done|].
    replace ((ELLIPSE_WIDTH_PX + SEGMENTS_MARGIN_PX) * Z.of_nat 0) with 0 by lia.
    change (inject_Z 0) with 0%Q. ring.
  - rewrite seqZ_cons by lia. cbn [renderLoop].
    destruct (lookup_lt_is_Some_2 (segments_ st) (Z.to_nat a) ltac:(lia)) as [seg Hseg].
    rewrite Hseg. rewrite widthAt_before by lia.
    destruct (IH (Z.succ a) (Z.pred m)
                (translateX + (inject_Z ELLIPSE_WIDTH_PX + inject_Z SEGMENTS_MARGIN_PX))%Q
                Hrtl ltac:(lia) ltac:(lia) ltac:(lia) ltac:(lia))
      as (seg' & x & Hlook & Hseg' & Hx).
    destruct (renderLoop st segmentWidth (seqZ (Z.succ a) (Z.pred m)) _) as [ws e].
    cbn [fst] in *. exists seg', x.
    replace (a + Z.of_nat (S k)) with (Z.succ a + Z.of_nat k) by lia.
    split; [exact Hlook|]. split; [exact Hseg'|].
    rewrite Hx.
    replace ((ELLIPSE_WIDTH_PX + SEGMENTS_MARGIN_PX) * Z.of_nat (S k))
      with (ELLIPSE_WIDTH_PX + SEGMENTS_MARGIN_PX
            + (ELLIPSE_WIDTH_PX + SEGMENTS_MARGIN_PX) * Z.of_nat k) by lia.
    rewrite !inject_Z_plus. ring.
Qed.

(** X8. Left to right, with the window start inside the segments and
    [segments_] long enough, the callback of [render_] places every
    segment [k] up to the window start at
    [(k - (first - prevEllipsisCount)) * 4] pixels: the first ellipsis
    shown sits at 0, the segments collapsed before it at negative offsets,
    and the first expanded segment right after the ellipses shown.  The
    segments before the window get scale 2/2, the first expanded one the
    segment width over 2. *)
Theorem render_places_leading_segments st shouldAnimate k :
  storeRtl st = false ->
  0 <= k <= firstExpandedSegmentIndex_ st ->
  firstExpandedSegmentIndex_ st < segmentCount_ st ->
  segmentCount_ st <= Z.of_nat (length (segments_ st)) ->
  exists segment x,
    (runTask st (renderTask shouldAnimate st)).1 !! Z.to_nat k =
      Some (SetSegmentTransform segment x
              ((if k <? firstExpandedSegmentIndex_ st
                then inject_Z ELLIPSE_WIDTH_PX else getSegmentWidth_ st)
               / inject_Z ELLIPSE_WIDTH_PX)%Q)
    /\ segments_ st !! Z.to_nat k = Some segment
    /\ (x == inject_Z ((k - (firstExpandedSegmentIndex_ st - getPrevEllipsisCount_ st))
                       * (ELLIPSE_WIDTH_PX + SEGMENTS_MARGIN_PX)))%Q.
Proof.
  intros Hrtl Hk Hf Hseg.
  destruct (renderLoop_leading st (getSegmentWidth_ st) (Z.to_nat k) 0
              (segmentCount_ st) (initialTranslateX st) Hrtl)
    as (seg & x & Hlook & Hs & Hx); try lia.
  replace (0 + Z.of_nat (Z.to_nat k)) with k in * by lia.
  exists seg, x. split; [|split; [exact Hs|]].
  - unfold renderTask. cbn [runTask].
    destruct (renderLoop_total st (getSegmentWidth_ st)
                (seqZ 0 (segmentCount_ st)) (initialTranslateX st)) as [He Hl].
    { intros i Hi%elem_of_seqZ. lia. }
    destruct (renderLoop st (getSegmentWidth_ st) _ _) as [ws e].
    cbn [fst snd] in *. subst e. cbn [fst].
    rewrite lookup_app_l by (rewrite Hl, length_seqZ; lia).
    rewrite Hlook. do 3 f_equal. unfold widthAt, MAX_SEGMENTS.
    destruct (k <? firstExpandedSegmentIndex_ st) eqn:E.
    + apply Z.ltb_lt in E.
      replace (firstExpandedSegmentIndex_ st <=? k) with false; [done|].
      symmetry. apply Z.leb_gt. lia.
    + apply Z.ltb_ge in E.
      replace (firstExpandedSegmentIndex_ st <=? k) with true
        by (symmetry; apply Z.leb_le; lia).
      replace (k <? firstExpandedSegmentIndex_ st + 20) with true; [done|].
      symmetry. apply Z.ltb_lt. lia.
  - rewrite Hx. unfold initialTranslateX. rewrite <- inject_Z_plus.
    apply inject_Z_injective. unfold ELLIPSE_WIDTH_PX, SEGMENTS_MARGIN_PX. lia.
Qed.

Lemma render_places_leading_segments_witness :
  exists segment x,
    (runTask playingStory (renderTask true playingStory)).1 !! Z.to_nat 15 =
      Some (SetSegmentTransform segment x
              ((if 15 <? firstExpandedSegmentIndex_ playingStory
                then inject_Z ELLIPSE_WIDTH_PX else getSegmentWidth_ playingStory)
               / inject_Z ELLIPSE_WIDTH_PX)%Q)
    /\ segments_ playingStory !! Z.to_nat 15 = Some segment
    /\ (x == inject_Z ((15 - (firstExpandedSegmentIndex_ playingStory
                              - getPrevEllipsisCount_ playingStory))
                       * (ELLIPSE_WIDTH_PX + SEGMENTS_MARGIN_PX)))%Q.
Proof.
  apply (render_places_leading_segments playingStory true 15).
  - vm_compute. reflexivity.
  - split; apply Z.leb_le; vm_compute; reflexivity.
  - apply Z.ltb_lt. vm_compute. reflexivity.
  - apply Z.leb_le. vm_compute. reflexivity.
Defined.

(** X9. A progress update made while another segment than segment 0 is
    active moves the window start by at most [SEGMENT_INCREMENT] in either
    direction.  So a jump to a segment more than [SEGMENT_INCREMENT]
    beyond the window leaves that segment outside the window: the window
    needs further updates to catch up. *)
Theorem window_moves_one_increment_per_update id p ua st i :
  segmentIdMap_ st !! id = Some i ->
  is_Some (root_ st) ->
  activeSegmentIndex_ st <> 0 ->
  windowOk st ->
  0 <= i < segmentCount_ st ->
  let f := firstExpandedSegmentIndex_ st in
  let f' := firstExpandedSegmentIndex_ (stateOf (updateProgress id p ua st)) in
  f - SEGMENT_INCREMENT <= f' <= f + SEGMENT_INCREMENT
  /\ (f + MAX_SEGMENTS + SEGMENT_INCREMENT <= i -> f' + MAX_SEGMENTS <= i)
  /\ (i < f - SEGMENT_INCREMENT -> i < f').
Proof.
  intros Hid [children Hroot] Hact [H0 H1] Hi f f'. subst f f'.
  rewrite (updateProgress_ok _ _ _ _ _ _ Hid Hroot). cbn [stateOf]. fields.
  unfold firstAfterUpdate, firstAfterInitial.
  apply Z.eqb_neq in Hact. rewrite Hact, overflowFirst_spec.
  unfold checkOverflowSpec, MAX_SEGMENTS, SEGMENT_INCREMENT in *.
  repeat case_match; lia.
Qed.

Lemma window_moves_one_increment_per_update_witness :
  let f := firstExpandedSegmentIndex_ playingStory in
  let f' := firstExpandedSegmentIndex_
              (stateOf (updateProgress (pageId 49) 1 false playingStory)) in
  f - SEGMENT_INCREMENT <= f' <= f + SEGMENT_INCREMENT
  /\ (f + MAX_SEGMENTS + SEGMENT_INCREMENT <= 49 -> f' + MAX_SEGMENTS <= 49)
  /\ (49 < f - SEGMENT_INCREMENT -> 49 < f').
Proof.
  apply (window_moves_one_increment_per_update (pageId 49) 1 false playingStory 49).
  - vm_compute. reflexivity.
  - vm_compute. eexists. reflexivity.
  - vm_compute. discriminate.
  - split; [apply Z.leb_le; vm_compute; reflexivity|].
    right. apply Z.leb_le. vm_compute. reflexivity.
  - split; [apply Z.leb_le|apply Z.ltb_lt]; vm_compute; reflexivity.
Defined.

(** X10. A progress update made while segment 0 is the active one (as on
    a new bar) for a registered segment beyond index [MAX_SEGMENTS] snaps
    the window so that it contains that segment at once, wherever the
    window was. *)
Theorem jump_from_first_segment_lands_in_window id p ua st i :
  segmentIdMap_ st !! id = Some i ->
  is_Some (root_ st) ->
  activeSegmentIndex_ st = 0 ->
  MAX_SEGMENTS < i < segmentCount_ st ->
  let st' := stateOf (updateProgress id p ua st) in
  threw (updateProgress id p ua st) = None
  /\ activeSegmentIndex_ st' = i
  /\ firstExpandedSegmentIndex_ st' <= i
       < firstExpandedSegmentIndex_ st' + MAX_SEGMENTS.
Proof.
  intros Hid [children Hroot] Hact Hi st'. subst st'.
  rewrite (updateProgress_ok _ _ _ _ _ _ Hid Hroot). cbn [stateOf threw]. fields.
  split; [done|]. split; [done|].
  unfold firstAfterUpdate, firstAfterInitial.
  rewrite Hact. cbn [Z.eqb]. rewrite overflowFirst_spec, initialFirst_spec.
  unfold checkOverflowSpec, initialWindowSpec, MAX_SEGMENTS, SEGMENT_INCREMENT in *.
  pose proof (Z.mod_pos_bound i 20 ltac:(lia)).
  repeat case_match; lia.
Qed.

Lemma jump_from_first_segment_lands_in_window_witness :
  let st' := stateOf (updateProgress (pageId 45) (1 # 2) false fiftyPages) in
  threw (updateProgress (pageId 45) (1 # 2) false fiftyPages) = None
  /\ activeSegmentIndex_ st' = 45
  /\ firstExpandedSegmentIndex_ st' <= 45
       < firstExpandedSegmentIndex_ st' + MAX_SEGMENTS.
Proof.
  apply (jump_from_first_segment_lands_in_window (pageId 45) (1 # 2) false fiftyPages 45).
  - vm_compute. reflexivity.
  - vm_compute. eexists. reflexivity.
  - vm_compute. reflexivity.
  - split; apply Z.ltb_lt; vm_compute; reflexivity.
Defined.

Lemma addAll_registered ids st id :
  is_Some (root_ st) ->
  is_Some (segmentIdMap_ (addAll ids st) !! id)
  <-> is_Some (segmentIdMap_ st !! id) \/ id ∈ ids.
Proof.
  revert st. induction ids as [|id' ids IH]; intros st [children Hroot].
  - unfold addAll. cbn. rewrite elem_of_nil. tauto.
  - rewrite (addAll_cons _ _ _ _ Hroot), elem_of_cons.
    destruct (hasOwn _ _) eqn:E.
    + rewrite IH by eauto. apply hasOwn_true in E.
      split; [tauto|]. intros [H|[->|H]]; tauto.
    + rewrite IH by (cbn; eauto). cbn. apply hasOwn_false in E.
      destruct (decide (id = id')) as [->|Hne].
      * rewrite lookup_insert_eq. split; [tauto|]. intros _. left. eauto.
      * rewrite lookup_insert_ne by done. split; [tauto|].
        intros [H|[->|H]]; tauto.
Qed.

(** X11. When the store delivers page ids to a built bar and the id of
    the active segment is not among them -- as for every list without the
    empty id while no progress update has been made --, the callback
    throws the invalid-segment-id assertion after it has rebuilt the
    registry: the bar is left with the new ids registered and the old
    active index, progress and window start. *)
Theorem page_ids_without_active_segment_throw ids st :
  isBuilt_ st = true ->
  is_Some (root_ st) ->
  activeSegmentId_ st ∉ ids ->
  let st' := stateOf (onPageIds ids st) in
  onPageIds ids st = Throw InvalidSegmentId (addAll ids (cleared st))
  /\ (forall id, is_Some (segmentIdMap_ st' !! id) <-> id ∈ ids)
  /\ activeSegmentIndex_ st' = activeSegmentIndex_ st
  /\ firstExpandedSegmentIndex_ st' = firstExpandedSegmentIndex_ st
  /\ activeSegmentId_ newProgressBar = "".
Proof.
  intros Hb Hroot Hnotin st'. subst st'. rewrite onPageIds_eq, Hb by done.
  assert (Hreg : forall id,
            is_Some (segmentIdMap_ (addAll ids (cleared st)) !! id) <-> id ∈ ids).
  { intros id. rewrite addAll_registered by (by eexists). cbn.
    rewrite lookup_empty. split; [|tauto]. intros [[? ?]|?]; done. }
  rewrite updateProgress_eq.
  destruct (segmentIdMap_ (addAll ids (cleared st)) !! activeSegmentId_ st) eqn:E.
  { exfalso. apply Hnotin, Hreg. rewrite E. eauto. }
  cbn [stateOf]. split; [done|]. split; [exact Hreg|].
  destruct (addAll_frame ids (cleared st) [] eq_refl) as ([_ Ha _ _ Hf _ _] & _).
  split; [exact Ha|]. split; [exact Hf|done].
Qed.

Lemma page_ids_without_active_segment_throw_witness :
  let st' := stateOf (onPageIds (pageIds 3) fiftyPages) in
  onPageIds (pageIds 3) fiftyPages
  = Throw InvalidSegmentId (addAll (pageIds 3) (cleared fiftyPages))
  /\ (forall id, is_Some (segmentIdMap_ st' !! id) <-> id ∈ pageIds 3)
  /\ activeSegmentIndex_ st' = activeSegmentIndex_ fiftyPages
  /\ firstExpandedSegmentIndex_ st' = firstExpandedSegmentIndex_ fiftyPages
  /\ activeSegmentId_ newProgressBar = "".
Proof.
  apply (page_ids_without_active_segment_throw (pageIds 3) fiftyPages).
  - vm_compute. reflexivity.
  - vm_compute. eexists. reflexivity.
  - apply (bool_decide_unpack _). vm_compute. reflexivity.
Defined.

(** X12. When the store delivers distinct page ids to a built bar and the
    id of the active segment is the [k]-th of them, the callback returns:
    every id is registered at its position in the list, the segment count
    is the length of the list, and the active index follows the active
    page to [k], its id and progress kept. *)
Theorem page_ids_keep_active_segment ids st (k : nat) :
  isBuilt_ st = true ->
  is_Some (root_ st) ->
  NoDup ids ->
  ids !! k = Some (activeSegmentId_ st) ->
  let st' := stateOf (onPageIds ids st) in
  threw (onPageIds ids st) = None
  /\ segmentCount_ st' = Z.of_nat (length ids)
  /\ (forall j id, ids !! j = Some id -> segmentIdMap_ st' !! id = Some (Z.of_nat j))
  /\ activeSegmentIndex_ st' = Z.of_nat k
  /\ activeSegmentId_ st' = activeSegmentId_ st
  /\ activeSegmentProgress_ st' = activeSegmentProgress_ st.
Proof.
  intros Hb Hroot Hnd Hk st'. subst st'. rewrite onPageIds_eq, Hb by done.
  set (st1 := addAll ids (cleared st)).
  destruct (addAll_lookup_fresh ids (cleared st)) as [Hlook Hcount];
    [by eexists|done|by intros; apply lookup_empty|].
  fold st1 in Hlook, Hcount. cbn in Hlook, Hcount.
  destruct (forEach_addSegmentIfNew_ok ids (cleared st)) as [_ [children Hch]];
    [by eexists|].
  fold st1 in Hch.
  pose proof (Hlook _ _ Hk) as Hactive.
  rewrite (updateProgress_ok _ _ _ _ _ _ Hactive Hch). cbn [stateOf threw]. fields.
  split; [done|]. split; [lia|]. split.
  { intros j id Hj. rewrite (Hlook _ _ Hj). f_equal; lia. }
  split; [lia|]. done.
Qed.

Lemma page_ids_keep_active_segment_witness :
  let st := playingStory in
  let st' := stateOf (onPageIds (pageIds 60) st) in
  threw (onPageIds (pageIds 60) st) = None
  /\ segmentCount_ st' = Z.of_nat (length (pageIds 60))
  /\ (forall j id, pageIds 60 !! j = Some id ->
        segmentIdMap_ st' !! id = Some (Z.of_nat j))
  /\ activeSegmentIndex_ st' = Z.of_nat 49
  /\ activeSegmentId_ st' = activeSegmentId_ st
  /\ activeSegmentProgress_ st' = activeSegmentProgress_ st.
Proof.
  apply (page_ids_keep_active_segment (pageIds 60) playingStory 49).
  - vm_compute. reflexivity.
  - vm_compute. eexists. reflexivity.
  - apply (bool_decide_unpack _). vm_compute. reflexivity.
  - vm_compute. reflexivity.
Defined.

(** X13. [replay_] puts the window back to 0, renders once without
    animation and leaves the active segment as it was.  A progress update
    for the first page after it keeps the window at 0 with no ellipsis
    before it, makes segment 0 the active one, and writes fill 0 to every
    other segment it writes. *)
Theorem replay_then_first_page id p ua st :
  segmentIdMap_ st !! id = Some 0 ->
  is_Some (root_ st) ->
  let st1 := stateOf (replay_ st) in
  let st2 := stateOf (updateProgress id p ua st1) in
  threw (replay_ st) = None
  /\ firstExpandedSegmentIndex_ st1 = 0
  /\ activeSegmentIndex_ st1 = activeSegmentIndex_ st
  /\ queuedBy st st1 = [renderTask false st1]
  /\ threw (updateProgress id p ua st1) = None
  /\ firstExpandedSegmentIndex_ st2 = 0
  /\ getPrevEllipsisCount_ st2 = 0
  /\ activeSegmentIndex_ st2 = 0
  /\ (forall k el q w,
        TaskSetStyle k el q w ∈ queuedBy st1 st2 -> k <> 1 -> q = 0%Q).
Proof.
  intros Hid [children Hroot] st1 st2.
  assert (Hst1 : st1 = enqueue [renderTask false (set_firstExpanded 0 st)]
                         (set_firstExpanded 0 st)).
  { subst st1. unfold replay_. msimpl. by rewrite render_eq. }
  assert (Hid1 : segmentIdMap_ st1 !! id = Some 0) by (by rewrite Hst1).
  assert (Hroot1 : root_ st1 = Some children) by (by rewrite Hst1).
  assert (Hst2 : updateProgress id p ua st1 =
                 Ok tt (enqueue (updateProgressTasks children 0 p ua st1)
                          (set_active 0 p id
                             (set_firstExpanded (firstAfterUpdate 0 st1) st1))))
    by apply (updateProgress_ok _ _ _ _ _ _ Hid1 Hroot1).
  assert (Hf : firstAfterUpdate 0 st1 = 0).
  { unfold firstAfterUpdate, firstAfterInitial.
    rewrite overflowFirst_spec, initialFirst_spec.
    replace (firstExpandedSegmentIndex_ st1) with 0 by (by rewrite Hst1).
    unfold checkOverflowSpec, initialWindowSpec, MAX_SEGMENTS.
    repeat case_match; lia. }
  split. { unfold replay_. msimpl. by rewrite render_eq. }
  split. { by rewrite Hst1. }
  split. { by rewrite Hst1. }
  split. { rewrite Hst1. rewrite queuedBy_enqueue by reflexivity. reflexivity. }
  split. { by rewrite Hst2. }
  subst st2. rewrite Hst2. cbn [stateOf].
  split. { fields. exact Hf. }
  split. { unfold getPrevEllipsisCount_. fields. rewrite Hf. reflexivity. }
  split. { reflexivity. }
  intros k el q w Hin Hk.
  rewrite queuedBy_enqueue in Hin by reflexivity.
  apply elem_of_updateProgressTasks_style in Hin as [Heq|Hin].
  - unfold styleTask in Heq. injection Heq as -> _ _ _. lia.
  - unfold syncTasks in Hin. destruct (_ || _); [|by apply elem_of_nil in Hin].
    apply elem_of_segmentTasks in Hin as (j & Hj%elem_of_seqZ & Hne & Heq).
    unfold styleTask in Heq. injection Heq as -> _ -> _.
    replace (j <? 0) with false; [done|]. symmetry. apply Z.ltb_ge. lia.
Qed.

Lemma replay_then_first_page_witness :
  let st1 := stateOf (replay_ playingStory) in
  let st2 := stateOf (updateProgress (pageId 0) 0 false st1) in
  threw (replay_ playingStory) = None
  /\ firstExpandedSegmentIndex_ st1 = 0
  /\ activeSegmentIndex_ st1 = activeSegmentIndex_ playingStory
  /\ queuedBy playingStory st1 = [renderTask false st1]
  /\ threw (updateProgress (pageId 0) 0 false st1) = None
  /\ firstExpandedSegmentIndex_ st2 = 0
  /\ getPrevEllipsisCount_ st2 = 0
  /\ activeSegmentIndex_ st2 = 0
  /\ (forall k el q w,
        TaskSetStyle k el q w ∈ queuedBy st1 st2 -> k <> 1 -> q = 0%Q).
Proof.
  apply (replay_then_first_page (pageId 0) 0 false playingStory).
  - vm_compute. reflexivity.
  - vm_compute. eexists. reflexivity.
Defined.

Lemma updateProgress_closes_in id p ua st i :
  segmentIdMap_ st !! id = Some i ->
  is_Some (root_ st) ->
  windowOk st ->
  0 <= i < segmentCount_ st ->
  let st' := stateOf (updateProgress id p ua st) in
  segmentIdMap_ st' !! id = Some i
  /\ is_Some (root_ st')
  /\ windowOk st'
  /\ segmentCount_ st' = segmentCount_ st
  /\ activeSegmentIndex_ st' = i
  /\ windowDistance i st' <= Z.max 0 (windowDistance i st - 1).
Proof.
  intros Hid [children Hroot] Hwin Hi st'. subst st'.
  pose proof (firstAfterUpdate_windowOk i st Hi Hwin) as Hwin'.
  rewrite (updateProgress_ok _ _ _ _ _ _ Hid Hroot). cbn [stateOf].
  unfold windowOk, windowDistance in *. fields.
  split; [done|]. split; [by eexists|]. split; [done|]. split; [done|].
  split; [done|].
  destruct Hwin as [H0 H1]. clear Hwin'.
  unfold firstAfterUpdate, firstAfterInitial.
  rewrite overflowFirst_spec, initialFirst_spec.
  unfold checkOverflowSpec, initialWindowSpec, MAX_SEGMENTS, SEGMENT_INCREMENT in *.
  pose proof (Z.mod_pos_bound i 20 ltac:(lia)).
  repeat case_match; lia.
Qed.

(** X15. Repeating a progress update for a registered segment brings the
    window to it: with a window that starts at 0 or fits into the
    segments, after as many updates as the segment lies outside the
    window, or more, the segment is the active one and lies inside the
    window. *)
Theorem repeated_updates_reach_segment id p ua st i (m : nat) :
  segmentIdMap_ st !! id = Some i ->
  is_Some (root_ st) ->
  windowOk st ->
  0 <= i < segmentCount_ st ->
  windowDistance i st <= Z.of_nat m ->
  let st' := repeatUpdate m id p ua st in
  firstExpandedSegmentIndex_ st' <= i
    < firstExpandedSegmentIndex_ st' + MAX_SEGMENTS
  /\ ((1 <= m)%nat -> activeSegmentIndex_ st' = i).
Proof.
  revert st. induction m as [|m IH]; intros st Hid Hroot Hwin Hi Hd st'; subst st'.
  - cbn [repeatUpdate]. unfold windowDistance, MAX_SEGMENTS in *.
    split; [lia|]. intros ?; lia.
  - cbn [repeatUpdate].
    destruct (updateProgress_closes_in id p ua st i Hid Hroot Hwin Hi)
      as (Hid' & Hroot' & Hwin' & Hn' & Hact & Hd').
    destruct (IH _ Hid' Hroot' Hwin') as [Hin Hactive]; [lia|lia|].
    split; [exact Hin|]. intros _.
    destruct m as [|m]; [exact Hact|]. apply Hactive. lia.
Qed.

Lemma repeated_updates_reach_segment_witness :
  let st' := repeatUpdate 15 (pageId 49) 1 false playingStory in
  firstExpandedSegmentIndex_ st' <= 49
    < firstExpandedSegmentIndex_ st' + MAX_SEGMENTS
  /\ ((1 <= 15)%nat -> activeSegmentIndex_ st' = 49).
Proof.
  apply (repeated_updates_reach_segment (pageId 49) 1 false playingStory 49 15).
  - vm_compute. reflexivity.
  - vm_compute. eexists. reflexivity.
  - split; [apply Z.leb_le; vm_compute; reflexivity|].
    right. apply Z.leb_le. vm_compute. reflexivity.
  - split; [apply Z.leb_le|apply Z.ltb_lt]; vm_compute; reflexivity.
  - apply Z.leb_le. vm_compute. reflexivity.
Defined.

(** X16. [addSegment_] itself does not look whether the id is known:
    called for a registered id it gives the id the next index and creates
    a further element, and no id is left at the old index.  The guard of
    the page id callback is what prevents this: with it, a registered id
    changes nothing. *)
Theorem addSegment_again_unmaps_index id st i :
  registryOk st ->
  is_Some (root_ st) ->
  segmentIdMap_ st !! id = Some i ->
  let st' := stateOf (addSegment_ id st) in
  threw (addSegment_ id st) = None
  /\ segmentIdMap_ st' !! id = Some (segmentCount_ st)
  /\ segmentCount_ st' = segmentCount_ st + 1
  /\ length (segments_ st') = S (length (segments_ st))
  /\ (forall id', segmentIdMap_ st' !! id' <> Some i)
  /\ addSegmentIfNew id st = Ok tt st.
Proof.
  intros [Hc Hrg Hinj Hsj] [children Hroot] Hid st'. subst st'.
  rewrite (addSegment_ok _ _ _ Hroot). cbn [stateOf threw].
  split; [done|]. split; [cbn; by rewrite lookup_insert_eq|].
  split; [done|]. split; [cbn; rewrite length_app; cbn; lia|].
  split.
  - intros id'. cbn. destruct (decide (id = id')) as [<-|Hne].
    + rewrite lookup_insert_eq. intros [= Heq]. specialize (Hrg _ _ Hid). lia.
    + rewrite lookup_insert_ne by done. intros H. apply Hne. by eapply Hinj.
  - rewrite (addSegmentIfNew_ok _ _ _ Hroot).
    replace (hasOwn (segmentIdMap_ st) id) with true; [done|].
    symmetry. apply hasOwn_true. eauto.
Qed.

Lemma addSegment_again_unmaps_index_witness :
  let st' := stateOf (addSegment_ "A" twoPages) in
  threw (addSegment_ "A" twoPages) = None
  /\ segmentIdMap_ st' !! "A" = Some (segmentCount_ twoPages)
  /\ segmentCount_ st' = segmentCount_ twoPages + 1
  /\ length (segments_ st') = S (length (segments_ twoPages))
  /\ (forall id', segmentIdMap_ st' !! id' <> Some 0)
  /\ addSegmentIfNew "A" twoPages = Ok tt twoPages.
Proof.
  apply (addSegment_again_unmaps_index "A" twoPages 0).
  - apply reachable_domOk. exists [EvBuild ["A"; "B"] 364; EvUpdateProgress "A" 1 false].
    reflexivity.
  - vm_compute. eexists. reflexivity.
  - vm_compute. reflexivity.
Defined.
